(** * pipelinex.decorators: a shallow embedding of [decorators.py]

    The module defines three function decorators: [log_time], [mem_profile]
    (only when the [memory_profiler] package can be found) and [dict_io].
    Python values are embedded as an inductive type, dictionaries as
    insertion-ordered association lists, exceptions as an error result, and
    the effects of a call (the state of the wrapped callable, the records
    handed to the logger, the readings of the clock) as explicit state. *)

From Stdlib Require Import List ZArith String Ascii Bool Lia DecimalString.
From Stdlib Require Import SpecFloat.
Import ListNotations.
Open Scope Z_scope.

(** ** Values, exceptions, results *)

(** The Python values the decorators inspect.  [isinstance(v, tuple)] holds
    only of [VTuple]; tuples, lists and strings can be iterated. *)
#[warnings="-register-all"]
Inductive value : Type :=
| VNone
| VInt (z : Z)
| VStr (s : string)
| VTuple (l : list value)
| VList (l : list value).

Inductive exn : Type :=
| IndexError
| KeyError
| TypeError
| ValueError
| OverflowError
| UnboundLocalError
| ZeroDivisionError
| AttributeError
| ImportError
| UserError (msg : string).

Inductive result (A : Type) : Type :=
| Ok (a : A)
| Raise (e : exn).
Arguments Ok {A} a.
Arguments Raise {A} e.

Definition isinstance_tuple (v : value) : bool :=
  match v with VTuple _ => true | _ => false end.

(** [iter(v)]: the items an iteration over [v] yields, [TypeError] when [v]
    is not iterable. *)
Definition iter_value (v : value) : result (list value) :=
  match v with
  | VTuple l => Ok l
  | VList l => Ok l
  | VStr s => Ok (map (fun c => VStr (String c EmptyString)) (list_ascii_of_string s))
  | VNone => Raise TypeError
  | VInt _ => Raise TypeError
  end.

(** ** A state and error monad *)

Module PyM.

Definition M (W A : Type) : Type := W -> result A * W.

Definition ret {W A} (a : A) : M W A := fun w => (Ok a, w).

Definition raise {W A} (e : exn) : M W A := fun w => (Raise e, w).

Definition bind {W A B} (m : M W A) (k : A -> M W B) : M W B :=
  fun w =>
    match m w with
    | (Ok a, w') => k a w'
    | (Raise e, w') => (Raise e, w')
    end.

Definition lift {W A} (r : result A) : M W A := fun w => (r, w).

End PyM.

Declare Scope py_scope.
Delimit Scope py_scope with py.
Notation "x <- m ;; k" := (PyM.bind m (fun x => k))
  (at level 61, m at next level, right associativity) : py_scope.
Notation "m ;;; k" := (PyM.bind m (fun _ => k))
  (at level 61, right associativity) : py_scope.

(** ** Dictionaries

    A [dict] keeps its items in insertion order and holds a key once. *)

Section Dict.

Variable K : Type.
Variable K_eq_dec : forall x y : K, {x = y} + {x <> y}.
Variable V : Type.

Definition dict : Type := list (K * V).

Definition dict_keys (d : dict) : list K := map fst d.

Definition dict_values (d : dict) : list V := map snd d.

Fixpoint dict_lookup (key : K) (d : dict) : option V :=
  match d with
  | [] => None
  | (k, v) :: d' => if K_eq_dec key k then Some v else dict_lookup key d'
  end.

(** [d[key]] *)
Definition dict_getitem (key : K) (d : dict) : result V :=
  match dict_lookup key d with
  | Some v => Ok v
  | None => Raise KeyError
  end.

(** [d[key] = v]: an existing key keeps its position, a new one goes last. *)
Fixpoint dict_setitem (key : K) (v : V) (d : dict) : dict :=
  match d with
  | [] => [(key, v)]
  | (k, v') :: d' =>
      if K_eq_dec key k then (k, v) :: d' else (k, v') :: dict_setitem key v d'
  end.

(** [dict(pairs)] *)
Definition dict_of_pairs (pairs : list (K * V)) : dict :=
  fold_left (fun d kv => dict_setitem (fst kv) (snd kv) d) pairs [].

(** *** Lemmas on dictionaries *)

Lemma dict_lookup_none (key : K) (d : dict) :
  ~ In key (dict_keys d) -> dict_lookup key d = None.
Proof.
  induction d as [|[k v] d IH]; simpl; intros Hn; [reflexivity|].
  destruct (K_eq_dec key k) as [->|Hne]; [exfalso; auto|].
  apply IH; intros Hin; apply Hn; now right.
Qed.

Lemma dict_setitem_fresh (key : K) (v : V) (d : dict) :
  ~ In key (dict_keys d) -> dict_setitem key v d = d ++ [(key, v)].
Proof.
  induction d as [|[k v'] d IH]; simpl; intros Hn; [reflexivity|].
  destruct (K_eq_dec key k) as [->|Hne]; [exfalso; auto|].
  f_equal; apply IH; intros Hin; apply Hn; now right.
Qed.

Lemma dict_keys_app (d1 d2 : dict) :
  dict_keys (d1 ++ d2) = dict_keys d1 ++ dict_keys d2.
Proof. apply map_app. Qed.

Lemma dict_keys_combine (ks : list K) (vs : list V) :
  List.length ks = List.length vs -> dict_keys (combine ks vs) = ks.
Proof.
  revert vs; induction ks as [|k ks IH]; intros [|v vs]; simpl; intros Hl;
    try reflexivity; try discriminate.
  f_equal; apply IH; now injection Hl.
Qed.

Lemma dict_lookup_app_last (key : K) (v : V) (d : dict) :
  ~ In key (dict_keys d) -> dict_lookup key (d ++ [(key, v)]) = Some v.
Proof.
  induction d as [|[k v'] d IH]; simpl; intros Hn.
  - destruct (K_eq_dec key key); [reflexivity|congruence].
  - destruct (K_eq_dec key k) as [->|Hne]; [exfalso; auto|].
    apply IH; intros Hin; apply Hn; now right.
Qed.

(** Building a dictionary from pairs with distinct keys keeps the pairs. *)
Lemma dict_of_pairs_fold (pairs : list (K * V)) (d : dict) :
  NoDup (dict_keys d ++ map fst pairs) ->
  fold_left (fun d kv => dict_setitem (fst kv) (snd kv) d) pairs d = d ++ pairs.
Proof.
  revert d; induction pairs as [|[k v] pairs IH]; intros d Hnd; simpl.
  - now rewrite app_nil_r.
  - simpl in Hnd.
    rewrite dict_setitem_fresh.
    + rewrite IH.
      * now rewrite <- app_assoc.
      * rewrite dict_keys_app; simpl. rewrite <- app_assoc; exact Hnd.
    + apply NoDup_remove_2 in Hnd. intros Hin; apply Hnd.
      apply in_or_app; now left.
Qed.

Lemma dict_of_pairs_nodup (pairs : list (K * V)) :
  NoDup (map fst pairs) -> dict_of_pairs pairs = pairs.
Proof. intros Hnd; unfold dict_of_pairs; now rewrite dict_of_pairs_fold. Qed.

End Dict.

Arguments dict_keys {K V} d.
Arguments dict_values {K V} d.
Arguments dict_lookup {K} K_eq_dec {V} key d.
Arguments dict_getitem {K} K_eq_dec {V} key d.
Arguments dict_setitem {K} K_eq_dec {V} key v d.
Arguments dict_of_pairs {K} K_eq_dec {V} pairs.

(** [d.get(key)]: [None] when the key is missing. *)
Definition dict_get {K} (K_eq_dec : forall x y : K, {x = y} + {x <> y})
    (key : K) (d : dict K value) : value :=
  match dict_lookup K_eq_dec key d with
  | Some v => v
  | None => VNone
  end.

(** ** Callables, the logger and the world

    A Python callable is called with positional and keyword arguments; it
    returns a value or raises, and may change a state of its own (type [S]).
    [fn_qualname] is its [__qualname__] attribute, when it has one, and
    [fn_repr] its [repr]. *)

Definition kwargs : Type := list (string * value).

Record callable (S : Type) : Type := {
  fn_call : list value -> kwargs -> S -> result value * S;
  fn_qualname : option string;
  fn_repr : string
}.
Arguments fn_call {S} c _ _ _.
Arguments fn_qualname {S} c.
Arguments fn_repr {S} c.

(** [_func_full_name]: [getattr(func, "__qualname__", repr(func))]. *)
Definition _func_full_name {S} (func : callable S) : string :=
  match fn_qualname func with
  | Some q => q
  | None => fn_repr func
  end.

(** ** Results as an error monad *)

Module Res.

Definition bind {A B} (r : result A) (k : A -> result B) : result B :=
  match r with
  | Ok a => k a
  | Raise e => Raise e
  end.

End Res.

Declare Scope res_scope.
Delimit Scope res_scope with res.
Notation "x <- m ;; k" := (Res.bind m (fun x => k))
  (at level 61, m at next level, right associativity) : res_scope.

(** ** Floats

    A Python [float] is an IEEE 754 binary64 number: [spec_float] with the
    operations of [SpecFloat] at precision 53 and maximal exponent 1024.
    Finite numbers are kept in their canonical form ([valid_binary]). *)

Module Float.

Definition prec : Z := 53.
Definition emax : Z := 1024.

Definition float : Type := spec_float.

Definition valid (x : float) : bool := valid_binary prec emax x.

Definition add : float -> float -> float := SFadd prec emax.
Definition sub : float -> float -> float := SFsub prec emax.
Definition mul : float -> float -> float := SFmul prec emax.
Definition div : float -> float -> float := SFdiv prec emax.
Definition ltb : float -> float -> bool := SFltb.
Definition leb : float -> float -> bool := SFleb.
Definition eqb : float -> float -> bool := SFeqb.

(** The float nearest to [m * 2^e]; [szero] is the sign of a zero result. *)
Definition of_scaled (m e : Z) (szero : bool) : float :=
  binary_normalize prec emax m e szero.

(** [float(n)] for an integer [n]. *)
Definition of_Z (n : Z) : float := of_scaled n 0 false.

Definition zero : float := S754_zero false.
Definition one : float := of_Z 1.
Definition half : float := of_scaled 1 (-1) false.
Definition sixty : float := of_Z 60.
Definition thousand : float := of_Z 1000.
(** The literal [0.1]. *)
Definition tenth : float := div one (of_Z 10).

(** Truth value of a float ([if (x)] in C): everything but a zero. *)
Definition nonzero (x : float) : bool :=
  match x with
  | S754_zero _ => false
  | _ => true
  end.

(** The sign bit; a NaN counts as positive. *)
Definition signbit (x : float) : bool :=
  match x with
  | S754_zero s => s
  | S754_infinity s => s
  | S754_finite s _ _ => s
  | S754_nan => false
  end.

(** [copysign(0.0, y)] *)
Definition copysign_zero (y : float) : float := S754_zero (signbit y).

(** C's [fmod]: the exact remainder of the truncated division, with the
    sign of [x]. *)
Definition fmod (x y : float) : float :=
  match x, y with
  | S754_nan, _ => S754_nan
  | _, S754_nan => S754_nan
  | S754_infinity _, _ => S754_nan
  | _, S754_zero _ => S754_nan
  | S754_zero _, _ => x
  | S754_finite _ _ _, S754_infinity _ => x
  | S754_finite sx mx ex, S754_finite _ my ey =>
      let e := Z.min ex ey in
      let r := (Zpos mx * 2 ^ (ex - e)) mod (Zpos my * 2 ^ (ey - e)) in
      of_scaled (cond_Zopp sx r) e sx
  end.

(** C's [floor]. *)
Definition floor (x : float) : float :=
  match x with
  | S754_finite s m e =>
      if 0 <=? e then x
      else of_scaled (cond_Zopp s (Zpos m) / 2 ^ (- e)) 0 s
  | _ => x
  end.

(** [divmod(vx, wx)] on floats, as CPython's [float_divmod] computes it. *)
Definition divmod (vx wx : float) : result (float * float) :=
  if eqb wx zero then Raise ZeroDivisionError
  else
    let mod0 := fmod vx wx in
    let div0 := div (sub vx mod0) wx in
    let '(div1, mod1) :=
      if nonzero mod0 then
        if negb (Bool.eqb (ltb wx zero) (ltb mod0 zero))
        then (sub div0 one, add mod0 wx)
        else (div0, mod0)
      else (div0, copysign_zero wx) in
    let floordiv :=
      if nonzero div1 then
        let fl := floor div1 in
        if ltb half (sub div1 fl) then add fl one else fl
      else copysign_zero (div vx wx) in
    Ok (floordiv, mod1).

(** [int(x)]: truncation towards zero. *)
Definition to_int (x : float) : result Z :=
  match x with
  | S754_nan => Raise ValueError
  | S754_infinity _ => Raise OverflowError
  | S754_zero _ => Ok 0
  | S754_finite s m e =>
      Ok (cond_Zopp s (if 0 <=? e then Zpos m * 2 ^ e else Zpos m / 2 ^ (- e)))
  end.

End Float.

(** ** The [%] formats *)

Definition digits_of_N (n : N) : string := NilZero.string_of_uint (N.to_uint n).

Fixpoint zeros (k : nat) : string :=
  match k with
  | O => EmptyString
  | S k' => String "0" (zeros k')
  end.

(** ["%0<width>d" % n] for an integer [n]; ["%d"] is width 0. *)
Definition format_d (width : nat) (n : Z) : string :=
  let ds := digits_of_N (Z.abs_N n) in
  if n <? 0
  then ("-" ++ zeros (width - 1 - String.length ds) ++ ds)%string
  else (zeros (width - String.length ds) ++ ds)%string.

(** ["%0<width>d" % x] for a float [x]: the format converts with [int(x)]. *)
Definition format_d_float (width : nat) (x : Float.float) : result string :=
  (n <- Float.to_int x ;; Ok (format_d width n))%res.

(** [num / den] rounded to the nearest integer, ties to even. *)
Definition round_half_even (num den : Z) : Z :=
  let q := num / den in
  match 2 * (num mod den) ?= den with
  | Lt => q
  | Eq => if Z.even q then q else q + 1
  | Gt => q + 1
  end.

(** [n], a count of [10^-p], written with [p] decimals. *)
Definition fixed (p : nat) (n : Z) : string :=
  (digits_of_N (Z.to_N (n / 10 ^ Z.of_nat p)) ++
   match p with
   | O => EmptyString
   | S _ => "." ++ format_d p (n mod 10 ^ Z.of_nat p)
   end)%string.

(** ["%.<p>f" % x]: the exact value of [x], correctly rounded to [p]
    decimals. *)
Definition format_f (p : nat) (x : Float.float) : string :=
  match x with
  | S754_nan => "nan"%string
  | S754_infinity s => if s then "-inf"%string else "inf"%string
  | S754_zero s => ((if s then "-" else "") ++ fixed p 0)%string
  | S754_finite s m e =>
      let n := if 0 <=? e then Zpos m * 2 ^ e * 10 ^ Z.of_nat p
               else round_half_even (Zpos m * 10 ^ Z.of_nat p) (2 ^ (- e)) in
      ((if s then "-" else "") ++ fixed p n)%string
  end.

(** ** [_human_readable_time] *)

Definition _human_readable_time (elapsed : Float.float) : result string :=
  (ms <- Float.divmod elapsed Float.sixty ;;
   let '(mins, secs) := ms in
   hm <- Float.divmod mins Float.sixty ;;
   let '(hours, mins) := hm in
   if Float.ltb Float.zero hours then
     h <- format_d_float 0 hours ;;
     m <- format_d_float 2 mins ;;
     s <- format_d_float 2 secs ;;
     Ok (h ++ "h" ++ m ++ "m" ++ s ++ "s")%string
   else if Float.ltb Float.zero mins then
     m <- format_d_float 0 mins ;;
     s <- format_d_float 2 secs ;;
     Ok (m ++ "m" ++ s ++ "s")%string
   else if Float.leb Float.one secs then
     Ok (format_f 2 secs ++ "s")%string
   else
     Ok (format_f 0 (Float.mul secs Float.thousand) ++ "ms")%string)%res.


(** ** The world of a call

    What a decorated call can change: the state of the wrapped callable
    ([w_user]), the records handed to the module's logger ([w_log], the
    oldest first) and the clock, an arbitrary sequence of readings of
    [time.time()] of which [w_reads] have been consumed.  [w_calls] is a
    ghost history: the arguments of each call a decorator made of the
    wrapped callable, the oldest first. *)

Inductive log_record (K : Type) : Type :=
| LogTook (name human : string) (elapsed : Float.float)
| LogConsumed (name : string) (mem : Float.float)
| LogKeyOut (key : K) (out : value).
Arguments LogTook {K} name human elapsed.
Arguments LogConsumed {K} name mem.
Arguments LogKeyOut {K} key out.

Record world (S K : Type) : Type := mkWorld {
  w_user : S;
  w_log : list (log_record K);
  w_clock : nat -> Float.float;
  w_reads : nat;
  w_calls : list (list value * kwargs)
}.
Arguments mkWorld {S K} _ _ _ _ _.
Arguments w_user {S K} w.
Arguments w_log {S K} w.
Arguments w_clock {S K} w.
Arguments w_reads {S K} w.
Arguments w_calls {S K} w.

Section Effects.

Context {S K : Type}.

(** The call of [func] with the positional arguments [args] and the
    keyword arguments [kw]. *)
Definition call (func : callable S) (args : list value) (kw : kwargs) : PyM.M (world S K) value :=
  fun w =>
    let '(r, s') := fn_call func args kw (w_user w) in
    (r, mkWorld s' (w_log w) (w_clock w) (w_reads w) (w_calls w ++ [(args, kw)])).

(** [log.info(...)] *)
Definition log_info (r : log_record K) : PyM.M (world S K) unit :=
  fun w => (Ok tt, mkWorld (w_user w) (w_log w ++ [r]) (w_clock w) (w_reads w) (w_calls w)).


(** *** [log_time] *)


(** *** [mem_profile]

    [memory_usage] belongs to the [memory_profiler] package: it runs the
    call it is given and, with [retval=True], returns what it measured with
    the call's value.  With [max_usage=True] the measure is a list of
    samples or the peak alone, a float, depending on the package's version. *)

Record memory_usage_options : Type := {
  mu_interval : Float.float;
  mu_timeout : Z;
  mu_max_usage : bool;
  mu_retval : bool;
  mu_include_children : bool
}.

Inductive usage : Type :=
| UsageList (samples : list Float.float)
| UsagePeak (peak : Float.float).

(** [mem_usage[0]]: a float has no items. *)
Definition usage_first (u : usage) : result Float.float :=
  match u with
  | UsageList (m :: _) => Ok m
  | UsageList [] => Raise IndexError
  | UsagePeak _ => Raise TypeError
  end.

Record memory_profiler : Type := {
  memory_usage :
    callable S -> list value -> kwargs -> memory_usage_options ->
    S -> result (usage * value) * S
}.

Definition call_memory_usage (pkg : memory_profiler) (func : callable S)
    (args : list value) (kw : kwargs) (o : memory_usage_options)
    : PyM.M (world S K) (usage * value) :=
  fun w =>
    let '(r, s') := memory_usage pkg func args kw o (w_user w) in
    (r, mkWorld s' (w_log w) (w_clock w) (w_reads w) (w_calls w)).

Definition mem_profile (pkg : memory_profiler) (func : callable S)
    (args : list value) (kw : kwargs) : PyM.M (world S K) value :=
  (mr <- call_memory_usage pkg func args kw
           {| mu_interval := Float.tenth; mu_timeout := 1; mu_max_usage := true;
              mu_retval := true; mu_include_children := true |} ;;
   let '(mem_usage, result) := mr in
   m0 <- PyM.lift (usage_first mem_usage) ;;
   log_info (LogConsumed (_func_full_name func) m0) ;;;
   PyM.ret result)%py.

(** *** [dict_of_list_to_list_of_dict] and [dict_io] *)

Variable K_eq_dec : forall x y : K, {x = y} + {x <> y}.

(** [iter] of each argument of [zip], in order. *)
Fixpoint iter_all (vs : list value) : result (list (list value)) :=
  match vs with
  | [] => Ok []
  | v :: vs' => (l <- iter_value v ;; ls <- iter_all vs' ;; Ok (l :: ls))%res
  end.

(** [zip] of the iterables [ls]: the rows of items at equal positions, as long as every
    iterable has one. *)
Fixpoint zip_star (ls : list (list value)) : list (list value) :=
  match ls with
  | [] => []
  | l :: ls' =>
      match ls' with
      | [] => map (fun x => [x]) l
      | _ :: _ => map (fun xr => fst xr :: snd xr) (combine l (zip_star ls'))
      end
  end.

Definition dict_of_list_to_list_of_dict (dict_of_list : dict K value)
    : result (list (dict K value)) :=
  (ls <- iter_all (dict_values dict_of_list) ;;
   Ok (map (fun vals => dict_of_pairs K_eq_dec (combine (dict_keys dict_of_list) vals))
           (zip_star ls)))%res.

(** What [_dict_io] returns: a dictionary, or a tuple of dictionaries. *)
Inductive output : Type :=
| OutDict (d : dict K value)
| OutTuple (ds : list (dict K value)).

(** The [for key in keys] loop; [last] is the binding of [key], if any. *)
Fixpoint dict_io_loop (func : callable S) (args : list (dict K value))
    (keys : list K) (out_dict : dict K value) (last : option K)
    : PyM.M (world S K) (dict K value * option K) :=
  match keys with
  | [] => PyM.ret (out_dict, last)
  | key :: keys' =>
      (let a := map (dict_get K_eq_dec key) args in
       out <- call func a [] ;;
       let out_dict := dict_setitem K_eq_dec key out out_dict in
       log_info (LogKeyOut key out) ;;;
       dict_io_loop func args keys' out_dict (Some key))%py
  end.

Definition dict_io (func : callable S) (args : list (dict K value)) : PyM.M (world S K) output :=
  match args with
  | [] => PyM.raise IndexError
  | d0 :: _ =>
      (let keys := dict_keys d0 in
       ol <- dict_io_loop func args keys [] None ;;
       let '(out_dict, last) := ol in
       match last with
       | None => PyM.raise UnboundLocalError
       | Some key =>
           v <- PyM.lift (dict_getitem K_eq_dec key out_dict) ;;
           if isinstance_tuple v then
             ds <- PyM.lift (dict_of_list_to_list_of_dict out_dict) ;;
             PyM.ret (OutTuple ds)
           else PyM.ret (OutDict out_dict)
       end)%py
  end.

End Effects.

Arguments memory_profiler S : clear implicits.
Arguments output K : clear implicits.

(** ** Loading the module

    The module's top level runs once, binding a name per statement, and
    stops at the first statement that raises.  Two things are the
    environment's: what [importlib.util.find_spec] answers for a name (a
    spec, [None], or an error of the import machinery), and what
    running [from memory_profiler import memory_usage] does: it binds the
    package's [memory_usage], or raises (the package is found but cannot
    be imported, or has no such name). *)

Inductive module_spec : Type :=
| ModuleSpec (name : string).

Record environment (S : Type) : Type := {
  env_find_spec : string -> result (option module_spec);
  env_import_memory_usage : result (memory_profiler S)
}.
Arguments env_find_spec {S} e name.
Arguments env_import_memory_usage {S} e.

(** [importlib.util.find_spec(name)]: [None] when nothing is found. *)
Definition find_spec {S} (env : environment S) (name : string)
    : result (option module_spec) :=
  env_find_spec env name.

(** [from memory_profiler import memory_usage] *)
Definition import_memory_usage {S} (env : environment S) : result (memory_profiler S) :=
  env_import_memory_usage env.

Inductive binding (S : Type) : Type :=
| BImported
| BLogger
| BFunction
| BMemoryUsage (pkg : memory_profiler S)
| BMemProfile (pkg : memory_profiler S).
Arguments BImported {S}.
Arguments BLogger {S}.
Arguments BFunction {S}.
Arguments BMemoryUsage {S} pkg.
Arguments BMemProfile {S} pkg.

Definition namespace (S : Type) : Type := dict string (binding S).

(** The names the module binds, in the order of its statements; an error
    when a statement raises.  A spec is true in [if find_spec(...)], [None]
    is false. *)
Definition load_module {S} (env : environment S) : result (namespace S) :=
  (let ns : namespace S :=
     [("find_spec", BImported); ("logging", BImported); ("time", BImported);
      ("wraps", BImported); ("Callable", BImported); ("log", BLogger);
      ("_func_full_name", BFunction); ("_human_readable_time", BFunction);
      ("log_time", BFunction)]%string in
   found <- find_spec env "memory_profiler" ;;
   ns <- match found with
         | Some _ =>
             pkg <- import_memory_usage env ;;
             Ok (ns ++ [("memory_usage", BMemoryUsage pkg);
                        ("mem_profile", BMemProfile pkg)]%string)
         | None => Ok ns
         end ;;
   Ok (ns ++ [("dict_of_list_to_list_of_dict", BFunction); ("dict_io", BFunction)]%string))%res.

(** [module.name]: [AttributeError] when the module has no such name. *)
Definition module_getattr {S} (ns : namespace S) (name : string) : result (binding S) :=
  match dict_lookup string_dec name ns with
  | Some b => Ok b
  | None => Raise AttributeError
  end.

(** [import module; module.mem_profile(func)(args, kw)] *)
Definition call_mem_profile {S K} (env : environment S) (func : callable S)
    (args : list value) (kw : kwargs) : PyM.M (world S K) value :=
  match load_module env with
  | Raise e => PyM.raise e
  | Ok ns =>
      match module_getattr ns "mem_profile" with
      | Ok (BMemProfile pkg) => mem_profile pkg func args kw
      | Ok _ => PyM.raise TypeError
      | Raise e => PyM.raise e
      end
  end.

(** * Properties *)

(** ** The per-key calls of [dict_io] *)

Section DictIO.

Context {S K : Type}.
Variable K_eq_dec : forall x y : K, {x = y} + {x <> y}.
Variable func : callable S.
Variable args : list (dict K value).

(** The positional arguments of the call for [key]. *)
Definition row_args (key : K) : list value := map (dict_get K_eq_dec key) args.

(** [per_key s keys rs s']: called for each key of [keys] in turn, from
    state [s], the callable returns the values [rs] and ends in [s']. *)
Inductive per_key : S -> list K -> list value -> S -> Prop :=
| per_key_nil s : per_key s [] [] s
| per_key_cons s key keys out s1 rs s2 :
    fn_call func (row_args key) [] s = (Ok out, s1) ->
    per_key s1 keys rs s2 ->
    per_key s (key :: keys) (out :: rs) s2.

Definition key_logs (keys : list K) (rs : list value) : list (log_record K) :=
  map (fun kr => LogKeyOut (fst kr) (snd kr)) (combine keys rs).

Definition key_calls (keys : list K) : list (list value * kwargs) :=
  map (fun key => (row_args key, @nil (string * value))) keys.

Definition last_key (keys : list K) (last : option K) : option K :=
  fold_left (fun _ key => Some key) keys last.

Lemma per_key_length s keys rs s' :
  per_key s keys rs s' -> List.length rs = List.length keys.
Proof. induction 1; simpl; congruence. Qed.

Lemma dict_io_loop_ok s keys rs s' :
  per_key s keys rs s' ->
  forall out_dict last lg clk n cs,
    NoDup (dict_keys out_dict ++ keys) ->
    dict_io_loop K_eq_dec func args keys out_dict last (mkWorld s lg clk n cs)
    = (Ok (out_dict ++ combine keys rs, last_key keys last),
       mkWorld s' (lg ++ key_logs keys rs) clk n (cs ++ key_calls keys)).
Proof.
  induction 1 as [s|s key keys out s1 rs s2 Hcall _ IH]; intros out_dict last lg clk n cs Hnd.
  - simpl. unfold PyM.ret, key_logs, key_calls. simpl. now rewrite !app_nil_r.
  - simpl. unfold PyM.bind, call, log_info. simpl.
    fold (row_args key). rewrite Hcall.
    rewrite dict_setitem_fresh.
    2:{ apply NoDup_remove_2 in Hnd. intros Hin; apply Hnd; apply in_or_app; now left. }
    rewrite IH.
    + unfold key_logs, key_calls, last_key. simpl. now rewrite <- !app_assoc.
    + rewrite dict_keys_app. simpl. rewrite <- app_assoc. exact Hnd.
Qed.

Lemma dict_io_loop_raise s keys rs s1 key e s2 keys' :
  per_key s keys rs s1 ->
  fn_call func (row_args key) [] s1 = (Raise e, s2) ->
  forall out_dict last lg clk n cs,
    dict_io_loop K_eq_dec func args (keys ++ key :: keys') out_dict last (mkWorld s lg clk n cs)
    = (Raise e,
       mkWorld s2 (lg ++ key_logs keys rs) clk n (cs ++ key_calls (keys ++ [key]))).
Proof.
  intros Hpk Hraise.
  induction Hpk as [s|s k keys out s1 rs s3 Hcall _ IH]; intros out_dict last lg clk n cs.
  - simpl. unfold PyM.bind, call. simpl. fold (row_args key). rewrite Hraise.
    unfold key_logs. simpl. now rewrite app_nil_r.
  - simpl. unfold PyM.bind, call, log_info. simpl.
    fold (row_args k). rewrite Hcall.
    rewrite IH by assumption.
    unfold key_logs, key_calls. simpl. now rewrite <- !app_assoc.
Qed.

Lemma last_key_snoc keys key last : last_key (keys ++ [key]) last = Some key.
Proof. unfold last_key. now rewrite fold_left_app. Qed.

Lemma combine_snoc (keys : list K) (rs : list value) key r :
  List.length keys = List.length rs ->
  combine (keys ++ [key]) (rs ++ [r]) = combine keys rs ++ [(key, r)].
Proof.
  revert rs; induction keys as [|k keys IH]; intros [|r0 rs]; simpl; intros Hl;
    try discriminate; [reflexivity|].
  f_equal. apply IH. now injection Hl.
Qed.

(** After the loop, [out_dict[key]] is the result for the last key. *)
Lemma last_key_lookup keys rs :
  keys <> [] -> NoDup keys -> List.length rs = List.length keys ->
  exists key,
    last_key keys None = Some key /\
    dict_getitem K_eq_dec key (combine keys rs) = Ok (List.last rs VNone).
Proof.
  intros Hne Hnd Hlen.
  destruct (exists_last Hne) as [keys' [key ->]].
  assert (Hrs : rs <> []).
  { intros ->. rewrite length_app in Hlen. simpl in Hlen. lia. }
  destruct (exists_last Hrs) as [rs' [r ->]].
  rewrite !length_app in Hlen. simpl in Hlen.
  exists key. split; [apply last_key_snoc|].
  rewrite combine_snoc by lia.
  unfold dict_getitem. rewrite dict_lookup_app_last.
  - now rewrite last_last.
  - rewrite dict_keys_combine by lia.
    apply NoDup_remove_2 in Hnd. now rewrite app_nil_r in Hnd.
Qed.

(** The outcome of [dict_io] when no call raises: the branch is chosen by
    the result for the last key. *)
Lemma dict_io_returns d0 rest s rs s' lg clk n cs :
  args = d0 :: rest ->
  dict_keys d0 <> [] -> NoDup (dict_keys d0) ->
  per_key s (dict_keys d0) rs s' ->
  dict_io K_eq_dec func args (mkWorld s lg clk n cs)
  = (if isinstance_tuple (List.last rs VNone)
     then match dict_of_list_to_list_of_dict K_eq_dec (combine (dict_keys d0) rs) with
          | Ok ds => Ok (OutTuple ds)
          | Raise e => Raise e
          end
     else Ok (OutDict (combine (dict_keys d0) rs)),
     mkWorld s' (lg ++ key_logs (dict_keys d0) rs) clk n (cs ++ key_calls (dict_keys d0))).
Proof.
  intros Hargs Hne Hnd Hpk.
  unfold dict_io. rewrite Hargs. rewrite <- Hargs.
  unfold PyM.bind at 1.
  erewrite dict_io_loop_ok; [|exact Hpk|exact Hnd].
  simpl app.
  destruct (@last_key_lookup (dict_keys d0) rs Hne Hnd) as [key [-> Hget]];
    [eapply per_key_length; exact Hpk|].
  unfold PyM.bind, PyM.lift. change (@nil (K * value) ++ ?l) with l.
  rewrite Hget.
  destruct (isinstance_tuple (List.last rs VNone)); [|reflexivity].
  change (@nil (K * value) ++ combine (dict_keys d0) rs) with (combine (dict_keys d0) rs).
  destruct (dict_of_list_to_list_of_dict K_eq_dec (combine (dict_keys d0) rs)); reflexivity.
Qed.

(** A call that raises ends [dict_io] with that error. *)
Lemma dict_io_raises d0 rest keys key keys' s rs s1 e s2 lg clk n cs :
  args = d0 :: rest ->
  dict_keys d0 = keys ++ key :: keys' ->
  per_key s keys rs s1 ->
  fn_call func (row_args key) [] s1 = (Raise e, s2) ->
  dict_io K_eq_dec func args (mkWorld s lg clk n cs)
  = (Raise e, mkWorld s2 (lg ++ key_logs keys rs) clk n (cs ++ key_calls (keys ++ [key]))).
Proof.
  intros Hargs Hkeys Hpk Hraise.
  unfold dict_io. rewrite Hargs. rewrite <- Hargs.
  unfold PyM.bind at 1. rewrite Hkeys.
  erewrite dict_io_loop_raise; [reflexivity|exact Hpk|exact Hraise].
Qed.

(** The loop over [keys ++ keys']: the loop over [keys] and, unless a call
    raised, the loop over [keys'] from where it ended. *)
Lemma dict_io_loop_app keys keys' :
  forall out_dict last w,
    dict_io_loop K_eq_dec func args (keys ++ keys') out_dict last w
    = match dict_io_loop K_eq_dec func args keys out_dict last w with
      | (Ok (od, lk), w1) => dict_io_loop K_eq_dec func args keys' od lk w1
      | (Raise e, w1) => (Raise e, w1)
      end.
Proof.
  induction keys as [|key keys IH]; intros out_dict last w; [reflexivity|].
  simpl. unfold PyM.bind, call, log_info.
  destruct (fn_call func (map (dict_get K_eq_dec key) args) [] (w_user w)) as [[out|e] s1];
    [|reflexivity].
  apply IH.
Qed.

End DictIO.

(** ** Transposition *)

(** The length of the shortest list. *)
Fixpoint min_len (ts : list (list value)) : nat :=
  match ts with
  | [] => O
  | t :: ts' =>
      match ts' with
      | [] => List.length t
      | _ :: _ => Nat.min (List.length t) (min_len ts')
      end
  end.

(** The items at position [i]. *)
Definition column (i : nat) (ts : list (list value)) : list value :=
  map (fun t => nth i t VNone) ts.

Lemma list_as_seq_from {A B} (f : A -> B) (d : A) (l : list A) :
  forall a, map f l = map (fun i => f (nth (i - a) l d)) (seq a (List.length l)).
Proof.
  induction l as [|x l IH]; intros a; simpl; [reflexivity|].
  rewrite Nat.sub_diag. f_equal.
  rewrite (IH (Datatypes.S a)). apply map_ext_in. intros i Hi. apply in_seq in Hi.
  replace (i - a)%nat with (Datatypes.S (i - Datatypes.S a)) by lia. reflexivity.
Qed.

Lemma list_as_seq {A B} (f : A -> B) (d : A) (l : list A) :
  map f l = map (fun i => f (nth i l d)) (seq 0 (List.length l)).
Proof.
  rewrite (list_as_seq_from f d l 0). apply map_ext. intros i. now rewrite Nat.sub_0_r.
Qed.

Lemma zip_cons_rows (l : list value) (g : nat -> list value) :
  forall a m,
    map (fun xr => fst xr :: snd xr) (combine l (map g (seq a m)))
    = map (fun i => nth (i - a) l VNone :: g i) (seq a (Nat.min (List.length l) m)).
Proof.
  induction l as [|x l IH]; intros a [|m]; simpl; try reflexivity.
  rewrite Nat.sub_diag. f_equal.
  rewrite IH. apply map_ext_in. intros i Hi. apply in_seq in Hi.
  replace (i - a)%nat with (Datatypes.S (i - Datatypes.S a)) by lia. reflexivity.
Qed.

Lemma zip_star_columns (ts : list (list value)) :
  zip_star ts = map (fun i => column i ts) (seq 0 (min_len ts)).
Proof.
  induction ts as [|t ts IH]; [reflexivity|].
  destruct ts as [|t' ts].
  - simpl. apply (list_as_seq (fun x => [x])).
  - change (zip_star (t :: t' :: ts))
      with (map (fun xr : value * list value => fst xr :: snd xr)
                (combine t (zip_star (t' :: ts)))).
    rewrite IH, zip_cons_rows.
    change (min_len (t :: t' :: ts)) with (Nat.min (List.length t) (min_len (t' :: ts))).
    apply map_ext. intros i. now rewrite Nat.sub_0_r.
Qed.

Lemma iter_all_tuples (ts : list (list value)) : iter_all (map VTuple ts) = Ok ts.
Proof. induction ts as [|t ts IH]; simpl; [reflexivity|]. now rewrite IH. Qed.

Lemma dict_values_combine {K V} (ks : list K) (vs : list V) :
  List.length ks = List.length vs -> dict_values (combine ks vs) = vs.
Proof.
  revert vs; induction ks as [|k ks IH]; intros [|v vs]; simpl; intros Hl;
    try reflexivity; try discriminate.
  f_equal; apply IH; now injection Hl.
Qed.

Lemma column_length i ts : List.length (column i ts) = List.length ts.
Proof. apply length_map. Qed.

(** Transposing a dictionary of tuples: one dictionary per position up to
    the shortest tuple, each with every key. *)
Lemma transpose_tuples {K} (K_eq_dec : forall x y : K, {x = y} + {x <> y})
    (keys : list K) (ts : list (list value)) :
  NoDup keys -> List.length ts = List.length keys ->
  dict_of_list_to_list_of_dict K_eq_dec (combine keys (map VTuple ts))
  = Ok (map (fun i => combine keys (column i ts)) (seq 0 (min_len ts))).
Proof.
  intros Hnd Hlen. unfold dict_of_list_to_list_of_dict.
  rewrite dict_values_combine, dict_keys_combine by (now rewrite length_map).
  rewrite iter_all_tuples. simpl. f_equal.
  rewrite zip_star_columns, map_map. apply map_ext. intros i.
  apply dict_of_pairs_nodup.
  change (map fst (combine keys (column i ts))) with (dict_keys (combine keys (column i ts))).
  rewrite dict_keys_combine; [exact Hnd|]. now rewrite column_length.
Qed.

Lemma min_len_same {n : nat} {ts : list (list value)} :
  ts <> [] -> Forall (fun t => List.length t = n) ts -> min_len ts = n.
Proof.
  induction ts as [|t ts IH]; [congruence|]. intros _ Hall.
  inversion Hall as [|? ? Ht Hts]; subst.
  destruct ts as [|t' ts]; [reflexivity|].
  change (Nat.min (List.length t) (min_len (t' :: ts)) = List.length t).
  rewrite IH by (congruence || assumption). apply Nat.min_id.
Qed.

Lemma min_len_le (ts : list (list value)) (t : list value) :
  In t ts -> (min_len ts <= List.length t)%nat.
Proof.
  induction ts as [|t0 ts IH]; [contradiction|]. intros Hin.
  destruct ts as [|t' ts].
  - destruct Hin as [->|[]]. apply Nat.le_refl.
  - change (min_len (t0 :: t' :: ts)) with (Nat.min (List.length t0) (min_len (t' :: ts))).
    destruct Hin as [->|Hin]; [apply Nat.le_min_l|].
    etransitivity; [apply Nat.le_min_r|]. now apply IH.
Qed.

Lemma min_len_attained (ts : list (list value)) :
  ts <> [] -> exists t, In t ts /\ List.length t = min_len ts.
Proof.
  induction ts as [|t0 ts IH]; [congruence|]. intros _.
  destruct ts as [|t' ts].
  - exists t0. split; [now left|reflexivity].
  - change (min_len (t0 :: t' :: ts)) with (Nat.min (List.length t0) (min_len (t' :: ts))).
    destruct (Nat.min_spec (List.length t0) (min_len (t' :: ts))) as [[_ ->]|[_ ->]].
    + exists t0. split; [now left|reflexivity].
    + destruct IH as [t [Hin Hl]]; [congruence|].
      exists t. split; [now right|exact Hl].
Qed.

(** ** Callables and inputs of the examples *)

Definition on_ints (name : string) (f : list Z -> option value) : callable unit :=
  {| fn_call := fun a _ s =>
       match f (flat_map (fun v => match v with VInt z => [z] | _ => [] end) a),
             forallb (fun v => match v with VInt _ => true | _ => false end) a with
       | Some r, true => (Ok r, s)
       | _, _ => (Raise TypeError, s)
       end;
     fn_qualname := Some name;
     fn_repr := ("<function " ++ name ++ ">")%string |}.

(** [f(x) = (x, x * 2)] *)
Definition pair_with_double : callable unit :=
  on_ints "pair_with_double"
    (fun a => match a with [x] => Some (VTuple [VInt x; VInt (x * 2)]) | _ => None end).

(** [f(x) = x * 2] *)
Definition double : callable unit :=
  on_ints "double" (fun a => match a with [x] => Some (VInt (x * 2)) | _ => None end).

(** [f(x, y) = x + y] *)
Definition plus : callable unit :=
  on_ints "plus" (fun a => match a with [x; y] => Some (VInt (x + y)) | _ => None end).

(** [f(x)]: a tuple for [x < 2], the scalar [x] otherwise. *)
Definition tuple_then_scalar : callable unit :=
  on_ints "tuple_then_scalar"
    (fun a => match a with
              | [x] => Some (if x <? 2 then VTuple [VInt x; VInt x] else VInt x)
              | _ => None
              end).

(** [f(x)]: the tuple of [x] items [x, ..., x]. *)
Definition repeat_self : callable unit :=
  on_ints "repeat_self"
    (fun a => match a with [x] => Some (VTuple (repeat (VInt x) (Z.to_nat x))) | _ => None end).

(** [f(x)] raises for [x = 2]. *)
Definition fails_on_two : callable unit :=
  on_ints "fails_on_two"
    (fun a => match a with [x] => if x =? 2 then None else Some (VInt x) | _ => None end).

Definition d_ab : dict string value := [("a", VInt 1); ("b", VInt 2)]%string.
Definition d_a1 : dict string value := [("a", VInt 1)]%string.
Definition d_a10 : dict string value := [("a", VInt 10)]%string.

Definition w0 : world unit string := mkWorld tt [] (fun _ => Float.zero) O [].

(** ** The Row/Column Adapter *)

(** C1. Transpose branch: when the call for every key of a non-empty first
    mapping returns a tuple of length [n], [dict_io] returns the tuple of
    [n] mappings whose [i]-th maps each key, in the order of the first
    mapping, to item [i] of that key's tuple.  With [f(x) = (x, x * 2)] and
    [{"a": 1, "b": 2}] it returns [({"a": 1, "b": 2}, {"a": 2, "b": 4})]. *)
Theorem dict_io_transpose_branch :
  (forall (S K : Type) (K_eq_dec : forall x y : K, {x = y} + {x <> y})
          (func : callable S) (d0 : dict K value) (rest : list (dict K value))
          (s s' : S) (ts : list (list value)) (n : nat) lg clk r cs,
      dict_keys d0 <> [] ->
      NoDup (dict_keys d0) ->
      per_key K_eq_dec func (d0 :: rest) s (dict_keys d0) (map VTuple ts) s' ->
      Forall (fun t => List.length t = n) ts ->
      dict_io K_eq_dec func (d0 :: rest) (mkWorld s lg clk r cs)
      = (Ok (OutTuple (map (fun i => combine (dict_keys d0) (column i ts)) (seq 0 n))),
         mkWorld s' (lg ++ key_logs (dict_keys d0) (map VTuple ts)) clk r
                 (cs ++ key_calls K_eq_dec (d0 :: rest) (dict_keys d0))))
  /\ fst (dict_io string_dec pair_with_double [d_ab] w0)
     = Ok (OutTuple [[("a", VInt 1); ("b", VInt 2)]; [("a", VInt 2); ("b", VInt 4)]]%string).
Proof.
  split; [|reflexivity].
  intros S K K_eq_dec func d0 rest s s' ts n lg clk r cs Hne Hnd Hpk Hall.
  assert (Hlen : List.length ts = List.length (dict_keys d0)).
  { apply per_key_length in Hpk. now rewrite length_map in Hpk. }
  erewrite dict_io_returns; [|reflexivity|exact Hne|exact Hnd|exact Hpk].
  assert (Hts : ts <> []).
  { intros ->. destruct (dict_keys d0); [congruence|discriminate]. }
  destruct (exists_last Hts) as [ts' [t Ets]].
  replace (List.last (map VTuple ts) VNone) with (VTuple t)
    by (rewrite Ets, map_app; simpl; now rewrite last_last).
  simpl. rewrite transpose_tuples by assumption.
  now rewrite (min_len_same (n:=n) Hts Hall).
Qed.

Lemma dict_io_transpose_branch_witness :
  dict_io string_dec pair_with_double [d_ab] w0
  = (Ok (OutTuple [[("a", VInt 1); ("b", VInt 2)]; [("a", VInt 2); ("b", VInt 4)]]%string),
     mkWorld tt
       [LogKeyOut "a"%string (VTuple [VInt 1; VInt 2]);
        LogKeyOut "b"%string (VTuple [VInt 2; VInt 4])]
       (fun _ => Float.zero) O [([VInt 1], []); ([VInt 2], [])]).
Proof.
  apply (proj1 dict_io_transpose_branch unit string string_dec pair_with_double d_ab []
           tt tt [[VInt 1; VInt 2]; [VInt 2; VInt 4]] 2%nat).
  - discriminate.
  - repeat constructor; simpl; intuition discriminate.
  - repeat econstructor.
  - repeat constructor.
Defined.

(** C2. Scalar branch: when no call returns a tuple, [dict_io] returns the
    mapping from each key of the non-empty first mapping, in its order, to
    the value of the call on the values found at that key in each mapping.
    [f(x) = x * 2] on [{"a": 1, "b": 2}] gives [{"a": 2, "b": 4}], and
    [f(x, y) = x + y] on [{"a": 1}] and [{"a": 10}] gives [{"a": 11}]. *)
Theorem dict_io_scalar_branch :
  (forall (S K : Type) (K_eq_dec : forall x y : K, {x = y} + {x <> y})
          (func : callable S) (d0 : dict K value) (rest : list (dict K value))
          (s s' : S) (rs : list value) lg clk r cs,
      dict_keys d0 <> [] ->
      NoDup (dict_keys d0) ->
      per_key K_eq_dec func (d0 :: rest) s (dict_keys d0) rs s' ->
      Forall (fun out => isinstance_tuple out = false) rs ->
      dict_io K_eq_dec func (d0 :: rest) (mkWorld s lg clk r cs)
      = (Ok (OutDict (combine (dict_keys d0) rs)),
         mkWorld s' (lg ++ key_logs (dict_keys d0) rs) clk r
                 (cs ++ key_calls K_eq_dec (d0 :: rest) (dict_keys d0))))
  /\ fst (dict_io string_dec double [d_ab] w0)
     = Ok (OutDict [("a", VInt 2); ("b", VInt 4)]%string)
  /\ fst (dict_io string_dec plus [d_a1; d_a10] w0)
     = Ok (OutDict [("a", VInt 11)]%string).
Proof.
  split; [|split; reflexivity].
  intros S K K_eq_dec func d0 rest s s' rs lg clk r cs Hne Hnd Hpk Hall.
  erewrite dict_io_returns; [|reflexivity|exact Hne|exact Hnd|exact Hpk].
  assert (Hrs : rs <> []).
  { intros ->. apply per_key_length in Hpk. destruct (dict_keys d0); [congruence|discriminate]. }
  destruct (exists_last Hrs) as [rs' [out Ers]].
  assert (Hout : isinstance_tuple (List.last rs VNone) = false).
  { rewrite Ers, last_last. rewrite Ers in Hall.
    apply Forall_app in Hall. destruct Hall as [_ Hl]. now inversion Hl. }
  now rewrite Hout.
Qed.

Lemma dict_io_scalar_branch_witness :
  dict_io string_dec plus [d_a1; d_a10] w0
  = (Ok (OutDict [("a", VInt 11)]%string),
     mkWorld tt [LogKeyOut "a"%string (VInt 11)] (fun _ => Float.zero) O
             [([VInt 1; VInt 10], [])]).
Proof.
  apply (proj1 dict_io_scalar_branch unit string string_dec plus d_a1 [d_a10] tt tt [VInt 11]).
  - discriminate.
  - repeat constructor; simpl; intuition discriminate.
  - repeat econstructor.
  - repeat constructor.
Defined.

(** C3. Error atomicity: when the call for a key raises, the calls for the
    keys before it having returned, [dict_io] raises that same error: it
    returns no mapping, and calls the callable for no later key. *)
Theorem dict_io_error_atomicity
    (S K : Type) (K_eq_dec : forall x y : K, {x = y} + {x <> y})
    (func : callable S) (d0 : dict K value) (rest : list (dict K value))
    (keys : list K) (key : K) (keys' : list K)
    (s s1 s2 : S) (rs : list value) (e : exn) lg clk r cs :
  dict_keys d0 = keys ++ key :: keys' ->
  per_key K_eq_dec func (d0 :: rest) s keys rs s1 ->
  fn_call func (row_args K_eq_dec (d0 :: rest) key) [] s1 = (Raise e, s2) ->
  dict_io K_eq_dec func (d0 :: rest) (mkWorld s lg clk r cs)
  = (Raise e,
     mkWorld s2 (lg ++ key_logs keys rs) clk r
             (cs ++ key_calls K_eq_dec (d0 :: rest) (keys ++ [key]))).
Proof.
  intros Hkeys Hpk Hraise.
  eapply dict_io_raises; [reflexivity|exact Hkeys|exact Hpk|exact Hraise].
Qed.

Definition d_abc : dict string value := [("a", VInt 1); ("b", VInt 2); ("c", VInt 3)]%string.

Lemma dict_io_error_atomicity_witness :
  dict_io string_dec fails_on_two [d_abc] w0
  = (Raise TypeError,
     mkWorld tt [LogKeyOut "a"%string (VInt 1)] (fun _ => Float.zero) O
             [([VInt 1], []); ([VInt 2], [])]).
Proof.
  apply (dict_io_error_atomicity unit string string_dec fails_on_two d_abc []
           ["a"%string] "b"%string ["c"%string] tt tt tt [VInt 1]).
  - reflexivity.
  - repeat econstructor.
  - reflexivity.
Defined.

(** [f(x)]: the scalar [x] for [x < 2], a tuple otherwise. *)
Definition scalar_then_tuple : callable unit :=
  on_ints "scalar_then_tuple"
    (fun a => match a with
              | [x] => Some (if x <? 2 then VInt x else VTuple [VInt x; VInt x])
              | _ => None
              end).

(** C4. Branch selection by the last key only: when every call returns,
    [dict_io] returns the mapping from key to result exactly when the
    result for the last key is no tuple, whatever the earlier results are;
    when it is a tuple the outcome is that of the transposition.  Tuples
    followed by a scalar give the mapping; a scalar followed by a tuple
    gives no mapping. *)
Theorem dict_io_branch_by_last_key :
  (forall (S K : Type) (K_eq_dec : forall x y : K, {x = y} + {x <> y})
          (func : callable S) (d0 : dict K value) (rest : list (dict K value))
          (s s' : S) (rs : list value) lg clk r cs,
      dict_keys d0 <> [] ->
      NoDup (dict_keys d0) ->
      per_key K_eq_dec func (d0 :: rest) s (dict_keys d0) rs s' ->
      fst (dict_io K_eq_dec func (d0 :: rest) (mkWorld s lg clk r cs))
      = if isinstance_tuple (List.last rs VNone)
        then match dict_of_list_to_list_of_dict K_eq_dec (combine (dict_keys d0) rs) with
             | Ok ds => Ok (OutTuple ds)
             | Raise e => Raise e
             end
        else Ok (OutDict (combine (dict_keys d0) rs)))
  /\ fst (dict_io string_dec tuple_then_scalar [d_ab] w0)
     = Ok (OutDict [("a", VTuple [VInt 1; VInt 1]); ("b", VInt 2)]%string)
  /\ fst (dict_io string_dec scalar_then_tuple [d_ab] w0) = Raise TypeError.
Proof.
  split; [|split; reflexivity].
  intros S K K_eq_dec func d0 rest s s' rs lg clk r cs Hne Hnd Hpk.
  erewrite dict_io_returns; [|reflexivity|exact Hne|exact Hnd|exact Hpk].
  reflexivity.
Qed.

Lemma dict_io_branch_by_last_key_witness :
  fst (dict_io string_dec tuple_then_scalar [d_ab] w0)
  = Ok (OutDict [("a", VTuple [VInt 1; VInt 1]); ("b", VInt 2)]%string).
Proof.
  apply (proj1 dict_io_branch_by_last_key unit string string_dec tuple_then_scalar d_ab []
           tt tt [VTuple [VInt 1; VInt 1]; VInt 2] [] (fun _ => Float.zero) O []).
  - discriminate.
  - repeat constructor; simpl; intuition discriminate.
  - repeat econstructor.
Defined.

(** C9. With a first mapping that has no key, [dict_io] raises: the loop
    binds no [key], and [out_dict[key]] after it is an unbound local. *)
Theorem dict_io_empty_first_mapping
    (S K : Type) (K_eq_dec : forall x y : K, {x = y} + {x <> y})
    (func : callable S) (rest : list (dict K value)) (w : world S K) :
  dict_io K_eq_dec func ([] :: rest) w = (Raise UnboundLocalError, w).
Proof. reflexivity. Qed.

(** C10. Tuples of differing lengths: when every call returns a tuple, the
    tuple [dict_io] returns is as long as the shortest of them (the items
    of longer results past that length are dropped), and each of its
    mappings has every key of the first mapping, in its order. *)
Theorem dict_io_transpose_truncates
    (S K : Type) (K_eq_dec : forall x y : K, {x = y} + {x <> y})
    (func : callable S) (d0 : dict K value) (rest : list (dict K value))
    (s s' : S) (ts : list (list value)) lg clk r cs :
  dict_keys d0 <> [] ->
  NoDup (dict_keys d0) ->
  per_key K_eq_dec func (d0 :: rest) s (dict_keys d0) (map VTuple ts) s' ->
  exists ds,
    fst (dict_io K_eq_dec func (d0 :: rest) (mkWorld s lg clk r cs)) = Ok (OutTuple ds)
    /\ ds = map (fun i => combine (dict_keys d0) (column i ts)) (seq 0 (min_len ts))
    /\ List.length ds = min_len ts
    /\ (forall t, In t ts -> (min_len ts <= List.length t)%nat)
    /\ (exists t, In t ts /\ List.length t = min_len ts)
    /\ Forall (fun d => dict_keys d = dict_keys d0) ds.
Proof.
  intros Hne Hnd Hpk.
  assert (Hlen : List.length ts = List.length (dict_keys d0)).
  { apply per_key_length in Hpk. now rewrite length_map in Hpk. }
  assert (Hts : ts <> []).
  { intros ->. destruct (dict_keys d0); [congruence|discriminate]. }
  eexists. split; [|split; [reflexivity|]].
  - erewrite dict_io_returns; [|reflexivity|exact Hne|exact Hnd|exact Hpk].
    destruct (exists_last Hts) as [ts' [t Ets]].
    replace (List.last (map VTuple ts) VNone) with (VTuple t)
      by (rewrite Ets, map_app; simpl; now rewrite last_last).
    simpl. now rewrite transpose_tuples by assumption.
  - split; [now rewrite length_map, length_seq|].
    split; [intros t; apply min_len_le|].
    split; [now apply min_len_attained|].
    apply Forall_forall. intros d Hd. apply in_map_iff in Hd.
    destruct Hd as [i [<- _]]. apply dict_keys_combine. now rewrite column_length.
Qed.

Lemma dict_io_transpose_truncates_witness :
  exists ds,
    fst (dict_io string_dec repeat_self [d_ab] w0) = Ok (OutTuple ds)
    /\ ds = [[("a", VInt 1); ("b", VInt 2)]%string]
    /\ List.length ds = 1%nat
    /\ (forall t, In t [[VInt 1]; [VInt 2; VInt 2]] -> (1 <= List.length t)%nat)
    /\ (exists t, In t [[VInt 1]; [VInt 2; VInt 2]] /\ List.length t = 1%nat)
    /\ Forall (fun d => dict_keys d = ["a"; "b"]%string) ds.
Proof.
  apply (dict_io_transpose_truncates unit string string_dec repeat_self d_ab []
           tt tt [[VInt 1]; [VInt 2; VInt 2]] [] (fun _ => Float.zero) O []).
  - discriminate.
  - repeat constructor; simpl; intuition discriminate.
  - repeat econstructor.
Defined.

(** C7. Missing keys: when a mapping lacks a key of the first mapping, the
    lookup for that key gives [None] instead of raising, and the callable
    is applied, for that key, to arguments with [None] at the position of
    that mapping.  The loop over the keys before it either raised, which
    ends [dict_io], or left a state in which the callable is applied to
    these arguments: its error ends [dict_io], and its value is stored
    under the key and logged before the loop goes on with the keys after. *)
Theorem dict_io_missing_key_passes_none
    (S K : Type) (K_eq_dec : forall x y : K, {x = y} + {x <> y})
    (func : callable S) (d0 : dict K value) (rest : list (dict K value))
    (keys : list K) (key : K) (keys' : list K)
    (j : nat) (dj : dict K value) (w : world S K) :
  dict_keys d0 = keys ++ key :: keys' ->
  nth_error (d0 :: rest) j = Some dj ->
  ~ In key (dict_keys dj) ->
  exists a,
    a = map (dict_get K_eq_dec key) (d0 :: rest)
    /\ dict_get K_eq_dec key dj = VNone
    /\ nth_error a j = Some VNone
    /\ match dict_io_loop K_eq_dec func (d0 :: rest) keys [] None w with
       | (Raise e, w1) => dict_io K_eq_dec func (d0 :: rest) w = (Raise e, w1)
       | (Ok (od, _), w1) =>
           match fn_call func a [] (w_user w1) with
           | (Raise e, s2) =>
               dict_io K_eq_dec func (d0 :: rest) w
               = (Raise e,
                  mkWorld s2 (w_log w1) (w_clock w1) (w_reads w1) (w_calls w1 ++ [(a, [])]))
           | (Ok out, s2) =>
               dict_io_loop K_eq_dec func (d0 :: rest) (dict_keys d0) [] None w
               = dict_io_loop K_eq_dec func (d0 :: rest) keys'
                   (dict_setitem K_eq_dec key out od) (Some key)
                   (mkWorld s2 (w_log w1 ++ [LogKeyOut key out]) (w_clock w1) (w_reads w1)
                            (w_calls w1 ++ [(a, [])]))
           end
       end.
Proof.
  intros Hkeys Hj Hin.
  assert (Hget : dict_get K_eq_dec key dj = VNone).
  { unfold dict_get. now rewrite dict_lookup_none. }
  eexists. split; [reflexivity|]. split; [exact Hget|].
  split; [rewrite nth_error_map, Hj; simpl; now rewrite Hget|].
  assert (Hloop := dict_io_loop_app K_eq_dec func (d0 :: rest) keys (key :: keys') [] None w).
  rewrite <- Hkeys in Hloop.
  destruct (dict_io_loop K_eq_dec func (d0 :: rest) keys [] None w) as [[[od lk]|e] w1].
  - cbn [dict_io_loop] in Hloop. unfold PyM.bind at 1, call in Hloop.
    destruct (fn_call func (map (dict_get K_eq_dec key) (d0 :: rest)) [] (w_user w1))
      as [[out|e] s2].
    + exact Hloop.
    + unfold dict_io, PyM.bind. now rewrite Hloop.
  - unfold dict_io, PyM.bind. now rewrite Hloop.
Qed.

(** [f(x, y)]: the pair [(x, y)]. *)
Definition pair_up : callable unit :=
  {| fn_call := fun a _ s => (Ok (VTuple a), s);
     fn_qualname := Some "pair_up"%string;
     fn_repr := "<function pair_up>"%string |}.

Lemma dict_io_missing_key_passes_none_witness :
  exists a,
    a = map (dict_get string_dec "b"%string) [d_ab; d_a10]
    /\ dict_get string_dec "b"%string d_a10 = VNone
    /\ nth_error a 1 = Some VNone
    /\ match dict_io_loop string_dec pair_up [d_ab; d_a10] ["a"%string] [] None w0 with
       | (Raise e, w1) => dict_io string_dec pair_up [d_ab; d_a10] w0 = (Raise e, w1)
       | (Ok (od, _), w1) =>
           match fn_call pair_up a [] (w_user w1) with
           | (Raise e, s2) =>
               dict_io string_dec pair_up [d_ab; d_a10] w0
               = (Raise e,
                  mkWorld s2 (w_log w1) (w_clock w1) (w_reads w1) (w_calls w1 ++ [(a, [])]))
           | (Ok out, s2) =>
               dict_io_loop string_dec pair_up [d_ab; d_a10] (dict_keys d_ab) [] None w0
               = dict_io_loop string_dec pair_up [d_ab; d_a10] []
                   (dict_setitem string_dec "b"%string out od) (Some "b"%string)
                   (mkWorld s2 (w_log w1 ++ [LogKeyOut "b"%string out]) (w_clock w1) (w_reads w1)
                            (w_calls w1 ++ [(a, [])]))
           end
       end.
Proof.
  apply (dict_io_missing_key_passes_none unit string string_dec pair_up d_ab [d_a10]
           ["a"%string] "b"%string [] 1 d_a10 w0).
  - reflexivity.
  - reflexivity.
  - simpl. intuition discriminate.
Defined.

(** ** More on the Row/Column Adapter *)

Lemma iter_all_length (vs : list value) :
  forall ls, iter_all vs = Ok ls -> List.length ls = List.length vs.
Proof.
  induction vs as [|v vs IH]; simpl; intros ls H.
  - now injection H as <-.
  - destruct (iter_value v) as [l|e]; [|discriminate]. simpl in H.
    destruct (iter_all vs) as [ls'|e]; [|discriminate]. simpl in H.
    injection H as <-. simpl. f_equal. now apply IH.
Qed.

(** The row at position [i] holds, for each key, item [i] of that key's
    sequence. *)
Lemma lookup_column {K} (K_eq_dec : forall x y : K, {x = y} + {x <> y})
    (d : dict K value) (i : nat) :
  forall ls, iter_all (dict_values d) = Ok ls ->
  forall key v l,
    dict_lookup K_eq_dec key d = Some v -> iter_value v = Ok l ->
    In l ls
    /\ dict_lookup K_eq_dec key (combine (dict_keys d) (column i ls)) = Some (nth i l VNone).
Proof.
  induction d as [|[k v0] d IH]; simpl; intros ls Hit key v l Hl Hv; [discriminate|].
  destruct (iter_value v0) as [l0|e] eqn:E0; [|discriminate]. simpl in Hit.
  destruct (iter_all (dict_values d)) as [ls'|e] eqn:E1; [|discriminate]. simpl in Hit.
  injection Hit as <-. simpl.
  destruct (K_eq_dec key k) as [->|Hne].
  - injection Hl as <-. rewrite E0 in Hv. injection Hv as <-. split; [now left|reflexivity].
  - destruct (IH ls' eq_refl key v l Hl Hv) as [Hin Hlk]. split; [now right|exact Hlk].
Qed.

(** A value that cannot be iterated makes the transposition raise. *)
Lemma iter_all_not_iterable (vs : list value) (v : value) :
  In v vs -> iter_value v = Raise TypeError -> iter_all vs = Raise TypeError.
Proof.
  induction vs as [|v0 vs IH]; simpl; intros Hin Hv; [contradiction|].
  destruct (iter_value v0) as [l|e] eqn:E0.
  - destruct Hin as [->|Hin]; [congruence|]. simpl. now rewrite IH.
  - simpl. destruct v0; simpl in E0; congruence.
Qed.

(** The loop reads the mappings only at the keys it visits. *)
Lemma dict_io_loop_ext {S K} (K_eq_dec : forall x y : K, {x = y} + {x <> y})
    (func : callable S) (args args' : list (dict K value)) (keys : list K) :
  (forall key, In key keys ->
     map (dict_get K_eq_dec key) args = map (dict_get K_eq_dec key) args') ->
  forall out_dict last (w : world S K),
    dict_io_loop K_eq_dec func args keys out_dict last w
    = dict_io_loop K_eq_dec func args' keys out_dict last w.
Proof.
  induction keys as [|key keys IH]; intros Hext out_dict last w; [reflexivity|].
  simpl. rewrite (Hext key) by now left.
  unfold PyM.bind at 1 3, call.
  destruct (fn_call func (map (dict_get K_eq_dec key) args') [] (w_user w)) as [[out|e] s1];
    [|reflexivity].
  unfold PyM.bind, log_info. apply IH. intros key' Hin. apply Hext. now right.
Qed.

(** [dict_of_list_to_list_of_dict] on a dictionary whose values are all
    iterable: there are as many rows as the shortest value has items, and
    row [i] has the keys of the dictionary, each mapped to item [i] of its
    value. *)
Theorem dict_of_list_to_list_of_dict_rows
    (K : Type) (K_eq_dec : forall x y : K, {x = y} + {x <> y})
    (d : dict K value) (ls : list (list value)) :
  NoDup (dict_keys d) ->
  iter_all (dict_values d) = Ok ls ->
  exists rows,
    dict_of_list_to_list_of_dict K_eq_dec d = Ok rows
    /\ List.length rows = min_len ls
    /\ (forall l, In l ls -> (min_len ls <= List.length l)%nat)
    /\ forall i row,
         nth_error rows i = Some row ->
         dict_keys row = dict_keys d
         /\ forall key v l,
              dict_lookup K_eq_dec key d = Some v -> iter_value v = Ok l ->
              exists x, nth_error l i = Some x /\ dict_lookup K_eq_dec key row = Some x.
Proof.
  intros Hnd Hit.
  assert (Hlen : List.length ls = List.length (dict_keys d)).
  { rewrite (iter_all_length _ _ Hit). unfold dict_values, dict_keys.
    now rewrite !length_map. }
  exists (map (fun i => combine (dict_keys d) (column i ls)) (seq 0 (min_len ls))).
  split; [|split; [|split]].
  - unfold dict_of_list_to_list_of_dict. rewrite Hit. simpl. f_equal.
    rewrite zip_star_columns, map_map. apply map_ext. intros i.
    apply dict_of_pairs_nodup.
    change (map fst (combine (dict_keys d) (column i ls)))
      with (dict_keys (combine (dict_keys d) (column i ls))).
    rewrite dict_keys_combine; [exact Hnd|]. now rewrite column_length.
  - now rewrite length_map, length_seq.
  - intros l. apply min_len_le.
  - intros i row Hrow.
    assert (Hi : (i < min_len ls)%nat).
    { assert (Hlt : nth_error (map (fun i => combine (dict_keys d) (column i ls))
                                   (seq 0 (min_len ls))) i <> None).
      { intros E. discriminate (eq_trans (eq_sym E) Hrow). }
      apply nth_error_Some in Hlt. now rewrite length_map, length_seq in Hlt. }
    rewrite nth_error_map, nth_error_seq in Hrow.
    destruct (Nat.ltb_spec i (min_len ls)) as [_|Hge]; [|lia].
    simpl in Hrow. injection Hrow as <-.
    split; [apply dict_keys_combine; now rewrite column_length|].
    intros key v l Hl Hv.
    destruct (lookup_column K_eq_dec d i ls Hit key v l Hl Hv) as [Hin Hlk].
    exists (nth i l VNone). split; [|exact Hlk].
    apply nth_error_nth'. pose proof (min_len_le ls l Hin). lia.
Qed.

Definition d_seqs : dict string value :=
  [("a", VStr "xy"); ("b", VList [VInt 1; VInt 2; VInt 3])]%string.

Lemma dict_of_list_to_list_of_dict_rows_witness :
  exists rows,
    dict_of_list_to_list_of_dict string_dec d_seqs = Ok rows
    /\ List.length rows = min_len [[VStr "x"; VStr "y"]; [VInt 1; VInt 2; VInt 3]]
    /\ (forall l, In l [[VStr "x"; VStr "y"]; [VInt 1; VInt 2; VInt 3]] ->
          (min_len [[VStr "x"; VStr "y"]; [VInt 1; VInt 2; VInt 3]] <= List.length l)%nat)
    /\ forall i row,
         nth_error rows i = Some row ->
         dict_keys row = dict_keys d_seqs
         /\ forall key v l,
              dict_lookup string_dec key d_seqs = Some v -> iter_value v = Ok l ->
              exists x, nth_error l i = Some x /\ dict_lookup string_dec key row = Some x.
Proof.
  apply (dict_of_list_to_list_of_dict_rows string string_dec d_seqs
           [[VStr "x"; VStr "y"]; [VInt 1; VInt 2; VInt 3]]).
  - repeat constructor; simpl; intuition discriminate.
  - reflexivity.
Defined.

(** When the result for the last key is a tuple and the result for some
    other key cannot be iterated ([None] or an integer), [dict_io] raises
    [TypeError]: every call has been made and logged by then. *)
Theorem dict_io_scalar_among_tuples
    (S K : Type) (K_eq_dec : forall x y : K, {x = y} + {x <> y})
    (func : callable S) (d0 : dict K value) (rest : list (dict K value))
    (s s' : S) (rs : list value) (r : value) lg clk n cs :
  dict_keys d0 <> [] ->
  NoDup (dict_keys d0) ->
  per_key K_eq_dec func (d0 :: rest) s (dict_keys d0) rs s' ->
  isinstance_tuple (List.last rs VNone) = true ->
  In r rs ->
  iter_value r = Raise TypeError ->
  dict_io K_eq_dec func (d0 :: rest) (mkWorld s lg clk n cs)
  = (Raise TypeError,
     mkWorld s' (lg ++ key_logs (dict_keys d0) rs) clk n
             (cs ++ key_calls K_eq_dec (d0 :: rest) (dict_keys d0))).
Proof.
  intros Hne Hnd Hpk Hlast Hin Hr.
  erewrite dict_io_returns; [|reflexivity|exact Hne|exact Hnd|exact Hpk].
  rewrite Hlast. unfold dict_of_list_to_list_of_dict.
  rewrite dict_values_combine by (symmetry; eapply per_key_length; exact Hpk).
  now rewrite (iter_all_not_iterable rs r Hin Hr).
Qed.

Lemma dict_io_scalar_among_tuples_witness :
  dict_io string_dec scalar_then_tuple [d_ab] w0
  = (Raise TypeError,
     mkWorld tt
       [LogKeyOut "a"%string (VInt 1); LogKeyOut "b"%string (VTuple [VInt 2; VInt 2])]
       (fun _ => Float.zero) O [([VInt 1], []); ([VInt 2], [])]).
Proof.
  apply (dict_io_scalar_among_tuples unit string string_dec scalar_then_tuple d_ab []
           tt tt [VInt 1; VTuple [VInt 2; VInt 2]] (VInt 1)).
  - discriminate.
  - repeat constructor; simpl; intuition discriminate.
  - repeat econstructor.
  - reflexivity.
  - now left.
  - reflexivity.
Defined.

(** [dict_io] reads the mappings after the first only at the keys of the
    first: two lists of mappings that agree there (also when [get] gives
    [None] on both sides) give the same outcome, whatever other keys they
    hold. *)
Theorem dict_io_ignores_other_keys
    (S K : Type) (K_eq_dec : forall x y : K, {x = y} + {x <> y})
    (func : callable S) (d0 : dict K value) (rest rest' : list (dict K value))
    (w : world S K) :
  Forall2 (fun d d' => forall key, In key (dict_keys d0) ->
                         dict_get K_eq_dec key d = dict_get K_eq_dec key d') rest rest' ->
  dict_io K_eq_dec func (d0 :: rest) w = dict_io K_eq_dec func (d0 :: rest') w.
Proof.
  intros Hagree. unfold dict_io, PyM.bind.
  rewrite (dict_io_loop_ext K_eq_dec func (d0 :: rest) (d0 :: rest') (dict_keys d0));
    [reflexivity|].
  intros key Hin. simpl. f_equal.
  induction Hagree as [|d d' rest rest' Hd _ IH]; [reflexivity|].
  simpl. now rewrite (Hd key Hin), IH.
Qed.

Definition d_a10_z5 : dict string value := [("z", VInt 5); ("a", VInt 10)]%string.

Lemma dict_io_ignores_other_keys_witness :
  dict_io string_dec plus [d_a1; d_a10_z5] w0 = dict_io string_dec plus [d_a1; d_a10] w0.
Proof.
  apply (dict_io_ignores_other_keys unit string string_dec plus d_a1 [d_a10_z5] [d_a10] w0).
  repeat constructor. simpl. intros key [<-|[]]. reflexivity.
Defined.

(** ** The Memory Profiling Decorator *)

(** A package whose [memory_usage] runs the call once and reports what
    [measure] gives; an error of the call goes through it. *)
Definition sampling_package {S} (measure : S -> usage) : memory_profiler S :=
  {| memory_usage := fun func args kw _ s =>
       match fn_call func args kw s with
       | (Ok v, s') => (Ok (measure s', v), s')
       | (Raise e, s') => (Raise e, s')
       end |}.

(** The loaded module has the name [mem_profile]. *)
Definition mem_profile_defined {S} (env : environment S) : bool :=
  match load_module env with
  | Ok ns => match module_getattr ns "mem_profile" with Ok _ => true | Raise _ => false end
  | Raise _ => false
  end.

(** [find_spec] finds the [memory_profiler] package. *)
Definition discoverable {S} (env : environment S) : bool :=
  match find_spec env "memory_profiler" with
  | Ok (Some _) => true
  | _ => false
  end.

(** C8, as amended.  Availability gating: the loaded module has the name
    [mem_profile] exactly when [find_spec] finds the [memory_profiler]
    package and the import of its [memory_usage] succeeds; the name is then
    bound to the decorator built on that [memory_usage].  When the package is
    not found the module loads without the name: fetching it raises, and no
    call of the decorator takes place.  When the package is found and the
    import raises, or [find_spec] itself raises, the module does not load:
    the error is that of the failing statement. *)
Theorem mem_profile_availability (S K : Type) (env : environment S) :
  (mem_profile_defined env = true
   <-> discoverable env = true /\ exists pkg, import_memory_usage env = Ok pkg)
  /\ (find_spec env "memory_profiler" = Ok None ->
      exists ns,
        load_module env = Ok ns
        /\ module_getattr ns "mem_profile" = Raise AttributeError
        /\ forall (func : callable S) args kw (w : world S K),
             call_mem_profile env func args kw w = (Raise AttributeError, w))
  /\ (forall spec pkg,
        find_spec env "memory_profiler" = Ok (Some spec) ->
        import_memory_usage env = Ok pkg ->
        exists ns,
          load_module env = Ok ns
          /\ module_getattr ns "mem_profile" = Ok (BMemProfile pkg)
          /\ forall (func : callable S) args kw (w : world S K),
               call_mem_profile env func args kw w = mem_profile pkg func args kw w)
  /\ (forall spec e,
        find_spec env "memory_profiler" = Ok (Some spec) ->
        import_memory_usage env = Raise e ->
        load_module env = Raise e
        /\ forall (func : callable S) args kw (w : world S K),
             call_mem_profile env func args kw w = (Raise e, w))
  /\ (forall e,
        find_spec env "memory_profiler" = Raise e ->
        load_module env = Raise e
        /\ forall (func : callable S) args kw (w : world S K),
             call_mem_profile env func args kw w = (Raise e, w)).
Proof.
  unfold mem_profile_defined, discoverable, call_mem_profile, load_module.
  destruct (find_spec env "memory_profiler") as [[spec|]|e0] eqn:Efind;
    [destruct (import_memory_usage env) as [pkg|e1] eqn:Eimp|..]; simpl.
  - split; [|split; [|split; [|split]]]; try discriminate.
    + split; [intros _; split; [reflexivity|now exists pkg]|reflexivity].
    + intros spec' pkg' _ [= <-]. eexists. repeat split.
  - split; [|split; [|split; [|split]]]; try discriminate.
    + split; [discriminate|intros [_ [pkg Hpkg]]; discriminate].
    + intros spec' e _ [= <-]. split; reflexivity.
  - split; [|split; [|split; [|split]]]; try discriminate.
    + split; [discriminate|intros [H _]; discriminate].
    + intros _. eexists. repeat split.
  - split; [|split; [|split; [|split]]]; try discriminate.
    + split; [discriminate|intros [H _]; discriminate].
    + intros e [= <-]. split; reflexivity.
Qed.

(** A package that is found and imports. *)
Definition one_sample : memory_profiler unit :=
  sampling_package (fun _ => UsageList [Float.one]).

Definition env_with_package : environment unit :=
  {| env_find_spec := fun name => Ok (Some (ModuleSpec name));
     env_import_memory_usage := Ok one_sample |}.

Lemma mem_profile_availability_witness :
  exists ns,
    load_module env_with_package = Ok ns
    /\ module_getattr ns "mem_profile" = Ok (BMemProfile one_sample)
    /\ forall (func : callable unit) args kw (w : world unit string),
         call_mem_profile env_with_package func args kw w = mem_profile one_sample func args kw w.
Proof.
  apply (proj1 (proj2 (proj2 (mem_profile_availability unit string env_with_package)))
           (ModuleSpec "memory_profiler") one_sample); reflexivity.
Defined.

(** A package that is found and cannot be imported. *)
Definition env_unimportable : environment unit :=
  {| env_find_spec := fun name => Ok (Some (ModuleSpec name));
     env_import_memory_usage := Raise ImportError |}.

(** C8, as stated, fails: the package is discoverable, the module does not
    load, and no [mem_profile] is defined. *)
Lemma mem_profile_availability_counterexample :
  discoverable env_unimportable = true
  /\ mem_profile_defined env_unimportable = false
  /\ load_module env_unimportable = Raise ImportError.
Proof. repeat split. Qed.


(** ** Facts on binary64 arithmetic

    The operations of [SpecFloat] round the exact result to one of the two
    floats around it.  Values are counted in units of [2^-1074], of which
    every finite float is an integer multiple. *)

Module FloatFacts.

Lemma digits2_pos_bounds (m : positive) :
  2 ^ (Zpos (digits2_pos m) - 1) <= Zpos m < 2 ^ Zpos (digits2_pos m).
Proof.
  induction m as [m IH|m IH|]; simpl digits2_pos.
  - rewrite Pos2Z.inj_succ. replace (Z.succ (Zpos (digits2_pos m)) - 1) with (Z.succ (Zpos (digits2_pos m) - 1)) by lia.
    rewrite !Z.pow_succ_r by lia. lia.
  - rewrite Pos2Z.inj_succ. replace (Z.succ (Zpos (digits2_pos m)) - 1) with (Z.succ (Zpos (digits2_pos m) - 1)) by lia.
    rewrite !Z.pow_succ_r by lia. lia.
  - simpl. lia.
Qed.

Lemma Zdigits2_bounds (m : Z) :
  0 < m -> 2 ^ (Zdigits2 m - 1) <= m < 2 ^ Zdigits2 m.
Proof. destruct m as [|p|p]; try lia. intros _. apply digits2_pos_bounds. Qed.

Lemma Zdigits2_nonneg (m : Z) : 0 <= Zdigits2 m.
Proof. destruct m; simpl; lia. Qed.

(** The number of digits is the least [d] with [m < 2^d]. *)
Lemma Zdigits2_le (m d : Z) : 0 <= m -> 0 <= d -> m < 2 ^ d -> Zdigits2 m <= d.
Proof.
  intros Hm Hd Hlt. destruct (Z.eq_dec m 0) as [->|Hne]; [simpl; lia|].
  destruct (Zdigits2_bounds m ltac:(lia)) as [Hlo _].
  destruct (Z_le_gt_dec (Zdigits2 m) d) as [|Hgt]; [assumption|exfalso].
  assert (2 ^ d <= 2 ^ (Zdigits2 m - 1)) by (apply Z.pow_le_mono_r; lia). lia.
Qed.

Lemma Zdigits2_ge (m d : Z) : 0 <= d -> 2 ^ d <= m -> d + 1 <= Zdigits2 m.
Proof.
  intros Hd Hle.
  assert (0 < 2 ^ d) by (apply Z.pow_pos_nonneg; lia).
  destruct (Zdigits2_bounds m ltac:(lia)) as [_ Hhi].
  destruct (Z_le_gt_dec (d + 1) (Zdigits2 m)) as [|Hgt]; [assumption|exfalso].
  assert (2 ^ Zdigits2 m <= 2 ^ d) by (apply Z.pow_le_mono_r; lia). lia.
Qed.

(** *** Shifting right *)

Definition inexact (mrs : shr_record) : bool := shr_r mrs || shr_s mrs.

Lemma shr_1_m (mrs : shr_record) :
  0 <= shr_m mrs -> shr_m (shr_1 mrs) = shr_m mrs / 2.
Proof.
  destruct mrs as [m r s]. simpl. intros Hm.
  destruct m as [|[p|p|]|p]; try lia; simpl shr_m.
  - reflexivity.
  - rewrite Pos2Z.inj_xI. apply Z.div_unique with (r := 1); lia.
  - rewrite Pos2Z.inj_xO. apply Z.div_unique with (r := 0); lia.
  - reflexivity.
Qed.

Lemma shr_1_inexact (mrs : shr_record) :
  0 <= shr_m mrs ->
  inexact (shr_1 mrs) = false <-> (inexact mrs = false /\ shr_m mrs mod 2 = 0).
Proof.
  destruct mrs as [m r s]. unfold inexact. simpl. intros Hm.
  destruct m as [|[p|p|]|p]; try lia; simpl shr_r; simpl shr_s.
  - simpl. intuition.
  - rewrite Pos2Z.inj_xI. replace ((2 * Zpos p + 1) mod 2) with 1.
    + simpl. split; [discriminate|]. intros [_ H]; discriminate.
    + apply Z.mod_unique with (q := Zpos p); lia.
  - rewrite Pos2Z.inj_xO. replace ((2 * Zpos p) mod 2) with 0.
    + simpl. intuition.
    + apply Z.mod_unique with (q := Zpos p); lia.
  - simpl. split; [discriminate|]. intros [_ H]. discriminate.
Qed.

Lemma mod_mul_zero (m a b : Z) :
  0 < a -> 0 < b -> (m mod (a * b) = 0 <-> (m mod a = 0 /\ (m / a) mod b = 0)).
Proof.
  intros Ha Hb. rewrite Z.rem_mul_r by lia.
  pose proof (Z.mod_pos_bound m a Ha). pose proof (Z.mod_pos_bound (m / a) b Hb).
  split; [intros H1|intros [-> ->]; lia]. nia.
Qed.

Lemma iter_shr_1 (p : positive) :
  forall mrs, 0 <= shr_m mrs ->
    shr_m (iter_pos shr_1 p mrs) = shr_m mrs / 2 ^ Zpos p
    /\ (inexact (iter_pos shr_1 p mrs) = false
        <-> (inexact mrs = false /\ shr_m mrs mod 2 ^ Zpos p = 0)).
Proof.
  assert (Hdiv : forall m k, 0 <= m -> 0 < k -> 0 <= m / k).
  { intros. apply Z.div_pos; lia. }
  induction p as [p IH|p IH|]; intros mrs Hm; simpl iter_pos.
  - assert (H1 : 0 <= shr_m (shr_1 mrs)) by (rewrite shr_1_m by assumption; apply Hdiv; lia).
    destruct (IH _ H1) as [Em1 Ei1].
    assert (Hpw : 0 < 2 ^ Zpos p) by (apply Z.pow_pos_nonneg; lia).
    assert (H2 : 0 <= shr_m (iter_pos shr_1 p (shr_1 mrs))) by (rewrite Em1; apply Hdiv; lia).
    destruct (IH _ H2) as [Em2 Ei2].
    rewrite (Pos2Z.inj_xI p).
    replace (2 ^ (2 * Zpos p + 1)) with (2 * (2 ^ Zpos p * 2 ^ Zpos p))
      by (replace (2 * Zpos p + 1) with (1 + Zpos p + Zpos p) by lia;
          rewrite !Z.pow_add_r by lia; change (2 ^ 1) with 2; ring).
    split.
    + rewrite Em2, Em1, shr_1_m by assumption.
      rewrite !Z.div_div by lia. reflexivity.
    + rewrite Ei2, Ei1, Em1, shr_1_inexact, shr_1_m by assumption.
      rewrite (mod_mul_zero (shr_m mrs) 2) by lia.
      rewrite (mod_mul_zero (shr_m mrs / 2)) by lia. tauto.
  - destruct (IH _ Hm) as [Em1 Ei1].
    assert (Hpw : 0 < 2 ^ Zpos p) by (apply Z.pow_pos_nonneg; lia).
    assert (H2 : 0 <= shr_m (iter_pos shr_1 p mrs)) by (rewrite Em1; apply Hdiv; lia).
    destruct (IH _ H2) as [Em2 Ei2].
    rewrite (Pos2Z.inj_xO p).
    replace (2 ^ (2 * Zpos p)) with (2 ^ Zpos p * 2 ^ Zpos p)
      by (replace (2 * Zpos p) with (Zpos p + Zpos p) by lia;
          rewrite Z.pow_add_r by lia; ring).
    split.
    + rewrite Em2, Em1. rewrite !Z.div_div by lia. reflexivity.
    + rewrite Ei2, Ei1, Em1. rewrite (mod_mul_zero (shr_m mrs)) by lia. tauto.
  - change (2 ^ 1) with 2. split; [now apply shr_1_m|now apply shr_1_inexact].
Qed.


(** *** Rounding a mantissa *)

Abbreviation fexp := (SpecFloat.fexp Float.prec Float.emax).

Lemma fexp_eq (e : Z) : fexp e = Z.max (e - 53) (-1074).
Proof. reflexivity. Qed.

Lemma inexact_of_loc (m : Z) (l : location) :
  inexact (shr_record_of_loc m l) = false <-> l = loc_Exact.
Proof. destruct l as [|[| |]]; cbv; split; intros H; congruence. Qed.

Lemma loc_of_inexact (mrs : shr_record) :
  loc_of_shr_record mrs = loc_Exact <-> inexact mrs = false.
Proof. destruct mrs as [m [|] [|]]; cbv; split; intros H; congruence. Qed.

Lemma shr_m_of_loc (m : Z) (l : location) : shr_m (shr_record_of_loc m l) = m.
Proof. destruct l as [|[| |]]; reflexivity. Qed.

Lemma shr_fexp_spec (m e : Z) (l : location) :
  0 <= m -> e <= fexp (Zdigits2 m + e) ->
  exists mrs,
    shr_fexp Float.prec Float.emax m e l = (mrs, fexp (Zdigits2 m + e))
    /\ shr_m mrs = m / 2 ^ (fexp (Zdigits2 m + e) - e)
    /\ (inexact mrs = false <-> (l = loc_Exact /\ m mod 2 ^ (fexp (Zdigits2 m + e) - e) = 0)).
Proof.
  intros Hm He. unfold shr_fexp, shr.
  remember (fexp (Zdigits2 m + e)) as e1 eqn:E1.
  destruct (e1 - e) as [|p|p] eqn:En; try lia.
  - exists (shr_record_of_loc m l). replace e1 with e by lia.
    rewrite shr_m_of_loc, inexact_of_loc, Z.div_1_r, Z.mod_1_r. intuition.
  - exists (iter_pos shr_1 p (shr_record_of_loc m l)).
    destruct (iter_shr_1 p (shr_record_of_loc m l)) as [Em Ei].
    { now rewrite shr_m_of_loc. }
    rewrite shr_m_of_loc in Em, Ei. rewrite inexact_of_loc in Ei.
    split; [f_equal; lia|]. split; assumption.
Qed.

Lemma round_nearest_even_cases (m : Z) (l : location) :
  (round_nearest_even m l = m \/ round_nearest_even m l = m + 1)
  /\ (l = loc_Exact -> round_nearest_even m l = m).
Proof.
  destruct l as [|[| |]]; simpl; try (destruct (Z.even m)); split; auto; discriminate.
Qed.

(** The float of sign [s], mantissa [M] and exponent [e], an infinity past
    the largest exponent. *)
Definition pack (s : bool) (M e : Z) : spec_float :=
  match M with
  | Z0 => S754_zero s
  | Zpos m =>
      if M =? 2 ^ 53 then
        if e + 1 <=? 971 then S754_finite s (2 ^ 52) (e + 1) else S754_infinity s
      else if e <=? 971 then S754_finite s m e else S754_infinity s
  | Zneg _ => S754_nan
  end.

(** [binary_round_aux] keeps the mantissa cut at the exponent [fexp], or
    the next one; it keeps it when nothing is cut off. *)
Lemma binary_round_aux_spec (s : bool) (mx ex : Z) (lx : location) :
  0 <= mx -> ex <= fexp (Zdigits2 mx + ex) ->
  exists M,
    (M = mx / 2 ^ (fexp (Zdigits2 mx + ex) - ex)
     \/ M = mx / 2 ^ (fexp (Zdigits2 mx + ex) - ex) + 1)
    /\ (lx = loc_Exact -> mx mod 2 ^ (fexp (Zdigits2 mx + ex) - ex) = 0 ->
        M = mx / 2 ^ (fexp (Zdigits2 mx + ex) - ex))
    /\ binary_round_aux Float.prec Float.emax s mx ex lx = pack s M (fexp (Zdigits2 mx + ex)).
Proof.
  intros Hm He.
  destruct (shr_fexp_spec mx ex lx Hm He) as [mrs [Eshr [Em Ei]]].
  remember (fexp (Zdigits2 mx + ex)) as e1 eqn:E1.
  assert (Hemin : -1074 <= e1) by (rewrite E1, fexp_eq; lia).
  assert (Hpw : 0 < 2 ^ (e1 - ex)) by (apply Z.pow_pos_nonneg; lia).
  set (q := mx / 2 ^ (e1 - ex)) in *.
  assert (Hq0 : 0 <= q) by (apply Z.div_pos; lia).
  assert (Hq : q < 2 ^ 53).
  { apply Z.div_lt_upper_bound; [lia|].
    destruct (Z.eq_dec mx 0) as [->|Hne]; [lia|].
    destruct (Zdigits2_bounds mx ltac:(lia)) as [_ Hhi].
    rewrite <- Z.pow_add_r by lia.
    eapply Z.lt_le_trans; [exact Hhi|].
    apply Z.pow_le_mono_r; [lia|]. rewrite E1, fexp_eq. lia. }
  unfold binary_round_aux. rewrite Eshr.
  destruct (round_nearest_even_cases (shr_m mrs) (loc_of_shr_record mrs)) as [HM HMe].
  remember (round_nearest_even (shr_m mrs) (loc_of_shr_record mrs)) as M eqn:EM.
  rewrite Em in HM, HMe.
  exists M. split; [exact HM|]. split.
  { intros Hl Hmod. apply HMe. apply loc_of_inexact. apply Ei. now split. }
  assert (HM0 : 0 <= M <= 2 ^ 53) by lia.
  destruct (Z.eq_dec M (2 ^ 53)) as [->|HMne].
  - (* the mantissa overflows by one digit *)
    unfold shr_fexp.
    replace (fexp (Zdigits2 (2 ^ 53) + e1) - e1) with 1
      by (rewrite fexp_eq; change (Zdigits2 (2 ^ 53)) with 54; lia).
    unfold pack. simpl.
    replace (e1 + 1 <=? 971) with (e1 + 1 <=? 1024 - 53) by reflexivity.
    reflexivity.
  - assert (Hd : Zdigits2 M <= 53) by (apply Zdigits2_le; lia).
    unfold shr_fexp, shr.
    destruct (fexp (Zdigits2 M + e1) - e1) as [|p|p] eqn:En.
    + simpl shr_m. unfold pack. destruct M as [|m|m]; try lia; try reflexivity.
      replace (Zpos m =? 2 ^ 53) with false by (symmetry; apply Z.eqb_neq; exact HMne).
      reflexivity.
    + rewrite fexp_eq in En. lia.
    + simpl shr_m. unfold pack. destruct M as [|m|m]; try lia; try reflexivity.
      replace (Zpos m =? 2 ^ 53) with false by (symmetry; apply Z.eqb_neq; exact HMne).
      reflexivity.
Qed.


(** *** Values in units of [2^-1074]

    Every finite binary64 number is an integer multiple of [2^-1074]. *)

Definition units (x : spec_float) : Z :=
  match x with
  | S754_finite s m e => cond_Zopp s (Zpos m * 2 ^ (e + 1074))
  | _ => 0
  end.

Definition mag (x : spec_float) : Z := Z.abs (units x).

Definition is_finite (x : spec_float) : bool :=
  match x with
  | S754_zero _ => true
  | S754_finite _ _ _ => true
  | _ => false
  end.

Definition sign_of (x : spec_float) : bool :=
  match x with
  | S754_zero s => s
  | S754_infinity s => s
  | S754_finite s _ _ => s
  | S754_nan => false
  end.

Definition valid (x : spec_float) : Prop := valid_binary Float.prec Float.emax x = true.

(** The magnitudes of the finite floats, in units. *)
Definition repr (c : Z) : Prop :=
  exists Mc ec, c = Mc * 2 ^ (ec + 1074) /\ 0 <= Mc < 2 ^ 53 /\ -1074 <= ec.

(** The largest finite float, in units. *)
Definition max_units : Z := (2 ^ 53 - 1) * 2 ^ (971 + 1074).

Lemma pow2_pos (k : Z) : 0 <= k -> 0 < 2 ^ k.
Proof. intros. apply Z.pow_pos_nonneg; lia. Qed.

Lemma pow2_split (a b : Z) : 0 <= b <= a -> 2 ^ a = 2 ^ (a - b) * 2 ^ b.
Proof. intros. rewrite <- Z.pow_add_r by lia. f_equal. lia. Qed.

Lemma pow2_le (a b : Z) : 0 <= a <= b -> 2 ^ a <= 2 ^ b.
Proof. intros. apply Z.pow_le_mono_r; lia. Qed.

Lemma pow2_lt_inv (a b : Z) : 0 <= a -> 0 <= b -> 2 ^ a < 2 ^ b -> a < b.
Proof. intros Ha Hb H. apply (Z.pow_lt_mono_r_iff 2); lia. Qed.

(** A mantissa and an exponent in canonical form, or the mantissa [2^53]. *)
Definition canonical (M e : Z) : Prop :=
  0 <= M <= 2 ^ 53 /\ -1074 <= e /\ (e = -1074 \/ 2 ^ 52 <= M).

Lemma pack_finite (s : bool) (M e : Z) :
  canonical M e -> M * 2 ^ (e + 1074) <= max_units ->
  valid (pack s M e) /\ is_finite (pack s M e) = true
  /\ units (pack s M e) = cond_Zopp s (M * 2 ^ (e + 1074))
  /\ sign_of (pack s M e) = s.
Proof.
  intros [HM [He Hc]] Hmax. unfold max_units in Hmax.
  assert (HP : 0 < 2 ^ (e + 1074)) by (apply pow2_pos; lia).
  destruct M as [|m|m]; try lia.
  - simpl. repeat split. now destruct s.
  - unfold pack.
    destruct (Z.eqb_spec (Zpos m) (2 ^ 53)) as [E|NE].
    + assert (He1 : e + 1 <= 971).
      { destruct (Z_le_gt_dec (e + 1) 971) as [|Hgt]; [assumption|exfalso].
        assert (2 ^ (971 + 1074) <= 2 ^ (e + 1074)) by (apply pow2_le; lia).
        rewrite E in Hmax. nia. }
      replace (e + 1 <=? 971) with true by (symmetry; apply Z.leb_le; exact He1).
      repeat split.
      * unfold valid, valid_binary, bounded, canonical_mantissa.
        apply andb_true_intro. split; [apply Z.eqb_eq|apply Z.leb_le; unfold Float.emax, Float.prec; lia].
        change (Zpos (digits2_pos (2 ^ 52))) with 53. rewrite fexp_eq. lia.
      * unfold units. f_equal. rewrite E.
        replace (e + 1 + 1074) with (1 + (e + 1074)) by lia.
        rewrite Z.pow_add_r by lia. change (Zpos (2 ^ 52)) with (2 ^ 52). change (2 ^ 1) with 2.
        change (2 ^ 53) with (2 ^ 52 * 2). ring.
    + assert (Hlt : Zpos m < 2 ^ 53) by lia.
      assert (He1 : e <= 971).
      { destruct (Z_le_gt_dec e 971) as [|Hgt]; [assumption|exfalso].
        destruct Hc as [->|Hc]; [lia|].
        assert (2 * 2 ^ (971 + 1074) <= 2 ^ (e + 1074)).
        { change (2 * 2 ^ (971 + 1074)) with (2 ^ (972 + 1074)). apply pow2_le; lia. }
        change (2 ^ 53) with (2 * 2 ^ 52) in Hmax. nia. }
      replace (e <=? 971) with true by (symmetry; apply Z.leb_le; exact He1).
      repeat split.
      unfold valid, valid_binary, bounded, canonical_mantissa.
      apply andb_true_intro. split; [apply Z.eqb_eq|apply Z.leb_le; unfold Float.emax, Float.prec; lia].
      rewrite fexp_eq.
      assert (Hd : Zpos (digits2_pos m) <= 53) by (apply (Zdigits2_le (Zpos m)); lia).
      destruct Hc as [->|Hc]; [lia|].
      assert (53 <= Zpos (digits2_pos m)) by (apply (Zdigits2_ge (Zpos m) 52); lia).
      lia.
Qed.


(** *** Rounding an exact value

    [rounds_to s N D x]: [x] has the sign [s] and the magnitude of one of the
    two floats next to [N / D] units, and is [N / D] when that is a float. *)

Definition rounds_to (s : bool) (N D : Z) (x : spec_float) : Prop :=
  exists M e1,
    x = pack s M e1 /\ -1074 <= e1
    /\ (e1 = -1074 \/ 2 ^ 52 <= N / (D * 2 ^ (e1 + 1074)))
    /\ N / (D * 2 ^ (e1 + 1074)) < 2 ^ 53
    /\ (M = N / (D * 2 ^ (e1 + 1074)) \/ M = N / (D * 2 ^ (e1 + 1074)) + 1)
    /\ (N mod (D * 2 ^ (e1 + 1074)) = 0 -> M = N / (D * 2 ^ (e1 + 1074))).

Section Sandwich.

Variables N D e1 M : Z.
Hypothesis HN : 0 <= N.
Hypothesis HD : 0 < D.
Hypothesis He1 : -1074 <= e1.
Hypothesis Hcanon : e1 = -1074 \/ 2 ^ 52 <= N / (D * 2 ^ (e1 + 1074)).
Hypothesis HM : M = N / (D * 2 ^ (e1 + 1074)) \/ M = N / (D * 2 ^ (e1 + 1074)) + 1.
Hypothesis Hexact : N mod (D * 2 ^ (e1 + 1074)) = 0 -> M = N / (D * 2 ^ (e1 + 1074)).

(** A float below the grid of [e1] is below the mantissa [2^52]. *)
Lemma repr_small (Mc ec : Z) :
  0 <= Mc < 2 ^ 53 -> -1074 <= ec < e1 ->
  Mc * 2 ^ (ec + 1074) < 2 ^ 52 * 2 ^ (e1 + 1074).
Proof.
  intros HMc Hec.
  assert (H1 : 0 < 2 ^ (ec + 1074)) by (apply pow2_pos; lia).
  assert (H2 : 2 * 2 ^ (ec + 1074) <= 2 ^ (e1 + 1074)).
  { replace (2 * 2 ^ (ec + 1074)) with (2 ^ (ec + 1 + 1074)).
    - apply pow2_le; lia.
    - replace (ec + 1 + 1074) with (1 + (ec + 1074)) by lia.
      rewrite Z.pow_add_r by lia. reflexivity. }
  change (2 ^ 53) with (2 ^ 52 * 2) in HMc. nia.
Qed.

(** A float on the grid of [e1] is a multiple of its step. *)
Lemma repr_grid (Mc ec : Z) :
  e1 <= ec -> Mc * 2 ^ (ec + 1074) = Mc * 2 ^ (ec - e1) * 2 ^ (e1 + 1074).
Proof.
  intros Hec. rewrite <- Z.mul_assoc, <- Z.pow_add_r by lia. do 2 f_equal. lia.
Qed.

Lemma sandwich_lower (c : Z) :
  repr c -> c * D <= N -> c <= M * 2 ^ (e1 + 1074).
Proof.
  intros [Mc [ec [-> [HMc Hec]]]] Hle.
  set (P := 2 ^ (e1 + 1074)) in *.
  assert (HP : 0 < P) by (apply pow2_pos; lia).
  set (q := N / (D * P)) in *.
  assert (Hq0 : 0 <= q) by (apply Z.div_pos; nia).
  assert (HqM : q * P <= M * P) by nia.
  destruct (Z_le_gt_dec e1 ec) as [Hge|Hlt].
  - rewrite (repr_grid Mc ec Hge) in *. fold P in Hle |- *.
    assert (Mc * 2 ^ (ec - e1) <= q).
    { apply Z.div_le_lower_bound; nia. }
    nia.
  - destruct Hcanon as [->|Hq]; [lia|].
    pose proof (repr_small Mc ec HMc ltac:(lia)) as Hs. fold P in Hs. nia.
Qed.

Lemma sandwich_upper (c : Z) :
  repr c -> N <= c * D -> M * 2 ^ (e1 + 1074) <= c.
Proof.
  intros [Mc [ec [-> [HMc Hec]]]] Hle.
  set (P := 2 ^ (e1 + 1074)) in *.
  assert (HP : 0 < P) by (apply pow2_pos; lia).
  set (q := N / (D * P)) in *.
  assert (Hq0 : 0 <= q) by (apply Z.div_pos; nia).
  assert (HDP : 0 < D * P) by nia.
  pose proof (Z.div_mod N (D * P) ltac:(lia)) as Hdm. fold q in Hdm.
  pose proof (Z.mod_pos_bound N (D * P) HDP) as Hr.
  destruct (Z.eq_dec (N mod (D * P)) 0) as [Hz|Hnz].
  - rewrite (Hexact Hz). rewrite Hz in Hdm. nia.
  - assert (HqN : q * P * D < Mc * 2 ^ (ec + 1074) * D) by nia.
    assert (Hlt : q * P < Mc * 2 ^ (ec + 1074)) by nia.
    destruct (Z_le_gt_dec e1 ec) as [Hge|Hlt'].
    + rewrite (repr_grid Mc ec Hge) in *. fold P in Hlt |- *.
      assert (q < Mc * 2 ^ (ec - e1)) by nia. nia.
    + exfalso. destruct Hcanon as [->|Hq]; [lia|].
      pose proof (repr_small Mc ec HMc ltac:(lia)) as Hs. fold P in Hs. nia.
Qed.

End Sandwich.

(** The float [x] rounds the exact value of [N / D] units with the sign
    [s]: it is a valid finite float between the floats around that value. *)
Definition rounded (s : bool) (N D : Z) (x : spec_float) : Prop :=
  valid x /\ is_finite x = true /\ sign_of x = s
  /\ units x = cond_Zopp s (mag x)
  /\ (forall c, repr c -> c * D <= N -> c <= mag x)
  /\ (forall c, repr c -> N <= c * D -> mag x <= c).

Lemma repr_max_units : repr max_units.
Proof. exists (2 ^ 53 - 1), 971. split; [reflexivity|lia]. Qed.

Lemma rounds_to_rounded (s : bool) (N D : Z) (x : spec_float) :
  0 <= N -> 0 < D -> N <= max_units * D ->
  rounds_to s N D x -> rounded s N D x.
Proof.
  intros HN HD Hmax [M [e1 [-> [He1 [Hc [Hq [HM Hex]]]]]]].
  assert (HP : 0 < 2 ^ (e1 + 1074)) by (apply pow2_pos; lia).
  assert (Hq0 : 0 <= N / (D * 2 ^ (e1 + 1074))) by (apply Z.div_pos; nia).
  assert (Hcan : canonical M e1).
  { unfold canonical. lia. }
  assert (Hup : M * 2 ^ (e1 + 1074) <= max_units)
    by (apply (sandwich_upper N D); auto using repr_max_units).
  destruct (pack_finite s M e1 Hcan Hup) as [Hv [Hf [Hu Hs]]].
  assert (Hmag : mag (pack s M e1) = M * 2 ^ (e1 + 1074)).
  { unfold mag. rewrite Hu. destruct s; simpl; nia. }
  repeat split; try assumption.
  - now rewrite Hmag.
  - intros c Hc' Hle. rewrite Hmag. apply (sandwich_lower N D); auto.
  - intros c Hc' Hle. rewrite Hmag. apply (sandwich_upper N D); auto.
Qed.


(** *** Normalising an integer mantissa *)

Lemma iter_xO (m d : positive) : Zpos (Pos.iter xO m d) = Zpos m * 2 ^ Zpos d.
Proof.
  induction d as [|d IH] using Pos.peano_ind.
  - simpl. lia.
  - rewrite Pos.iter_succ, Pos2Z.inj_xO, IH, Pos2Z.inj_succ, Z.pow_succ_r by lia. ring.
Qed.

Lemma shl_align_spec (mx : positive) (ex ex' : Z) :
  exists k, 0 <= k /\ (ex' < ex -> k = ex - ex') /\ (ex <= ex' -> k = 0)
            /\ shl_align mx ex ex' = (Z.to_pos (Zpos mx * 2 ^ k), ex - k)
            /\ 0 < Zpos mx * 2 ^ k.
Proof.
  unfold shl_align. destruct (ex' - ex) as [|d|d] eqn:E.
  - exists 0. rewrite Z.mul_1_r, Z.sub_0_r. simpl. repeat split; try lia.
  - exists 0. rewrite Z.mul_1_r, Z.sub_0_r. simpl. repeat split; try lia.
  - exists (Zpos d). rewrite <- iter_xO. simpl Z.to_pos.
    repeat split; try lia. f_equal. lia.
Qed.

Lemma Zdigits2_shift (m k : Z) : 0 < m -> 0 <= k -> Zdigits2 (m * 2 ^ k) = Zdigits2 m + k.
Proof.
  intros Hm Hk.
  destruct (Zdigits2_bounds m Hm) as [Hlo Hhi].
  assert (Hd : 1 <= Zdigits2 m) by (destruct m; simpl; lia).
  assert (HP : 0 < 2 ^ k) by (apply pow2_pos; lia).
  apply Z.le_antisymm.
  - apply Zdigits2_le; try nia. rewrite Z.pow_add_r by lia. nia.
  - replace (Zdigits2 m + k) with (Zdigits2 m - 1 + k + 1) by lia.
    apply Zdigits2_ge; [lia|]. rewrite Z.pow_add_r by lia. nia.
Qed.

Lemma binary_round_rounds (s : bool) (mx : positive) (e : Z) :
  -1074 <= e ->
  rounds_to s (Zpos mx * 2 ^ (e + 1074)) 1 (binary_round Float.prec Float.emax s mx e).
Proof.
  intros He. unfold binary_round.
  set (ef := fexp (Zpos (digits2_pos mx) + e)).
  assert (Hef : ef = Z.max (Zpos (digits2_pos mx) + e - 53) (-1074)) by reflexivity.
  destruct (digits2_pos_bounds mx) as [Hlo Hhi].
  destruct (shl_align_spec mx e ef) as [k [Hk [Hk1 [Hk2 [-> Hpos]]]]].
  set (mz := Zpos mx * 2 ^ k) in *.
  assert (Emz : Zpos (Z.to_pos mz) = mz) by (apply Z2Pos.id; exact Hpos).
  rewrite Emz.
  assert (Hdz : Zdigits2 mz + (e - k) = Zpos (digits2_pos mx) + e).
  { unfold mz. rewrite Zdigits2_shift by lia. simpl Zdigits2. lia. }
  destruct (binary_round_aux_spec s mz (e - k) loc_Exact) as [M [HM [Hex ->]]].
  { lia. }
  { rewrite Hdz. fold ef. destruct (Z_lt_le_dec ef e); [rewrite Hk1|rewrite Hk2]; lia. }
  rewrite Hdz in *. fold ef in HM, Hex |- *.
  assert (HPk : 0 < 2 ^ k) by (apply pow2_pos; lia).
  assert (Hn : 0 <= ef - (e - k)) by (destruct (Z_lt_le_dec ef e); [rewrite Hk1|rewrite Hk2]; lia).
  assert (HPn : 0 < 2 ^ (ef - (e - k))) by (apply pow2_pos; lia).
  assert (HPe : 0 < 2 ^ (e - k + 1074)).
  { apply pow2_pos. destruct (Z_lt_le_dec ef e); [rewrite Hk1|rewrite Hk2]; lia. }
  (* the quotient in units is the quotient of the aligned mantissa *)
  assert (EN : Zpos mx * 2 ^ (e + 1074) = mz * 2 ^ (e - k + 1074)).
  { unfold mz. rewrite <- Z.mul_assoc, <- Z.pow_add_r.
    - do 2 f_equal. lia.
    - lia.
    - destruct (Z_lt_le_dec ef e); [rewrite Hk1|rewrite Hk2]; lia. }
  assert (EP : 1 * 2 ^ (ef + 1074) = 2 ^ (ef - (e - k)) * 2 ^ (e - k + 1074)).
  { rewrite Z.mul_1_l, <- Z.pow_add_r.
    - f_equal. lia.
    - lia.
    - destruct (Z_lt_le_dec ef e); [rewrite Hk1|rewrite Hk2]; lia. }
  assert (Eq : Zpos mx * 2 ^ (e + 1074) / (1 * 2 ^ (ef + 1074)) = mz / 2 ^ (ef - (e - k))).
  { rewrite EN, EP. apply Z.div_mul_cancel_r; lia. }
  assert (Emod : Zpos mx * 2 ^ (e + 1074) mod (1 * 2 ^ (ef + 1074)) = 0 ->
                 mz mod 2 ^ (ef - (e - k)) = 0).
  { rewrite EN, EP. rewrite Z.mul_mod_distr_r by lia. nia. }
  exists M, ef. split; [reflexivity|]. split; [lia|].
  rewrite Eq. split; [|split; [|split]].
  - destruct (Z.eq_dec ef (-1074)) as [|Hne]; [now left|right].
    assert (Eef : ef = Zpos (digits2_pos mx) + e - 53) by lia.
    destruct (Z_lt_le_dec ef e) as [Hlt|Hge].
    + pose proof (Hk1 Hlt) as Ek. replace (ef - (e - k)) with 0 by lia.
      rewrite Z.div_1_r. unfold mz.
      replace k with (53 - Zpos (digits2_pos mx)) by lia.
      replace (2 ^ 52) with (2 ^ (Zpos (digits2_pos mx) - 1) * 2 ^ (53 - Zpos (digits2_pos mx))).
      * apply Z.mul_le_mono_nonneg_r; [|exact Hlo].
        apply Z.lt_le_incl, pow2_pos. lia.
      * rewrite <- Z.pow_add_r by lia. f_equal. lia.
    + pose proof (Hk2 Hge) as Ek. unfold mz. rewrite Ek, Z.mul_1_r, Z.sub_0_r.
      apply Z.div_le_lower_bound; [apply pow2_pos; lia|].
      replace (ef - e) with (Zpos (digits2_pos mx) - 53) by lia.
      rewrite Z.mul_comm, <- Z.pow_add_r by lia.
      replace (52 + (Zpos (digits2_pos mx) - 53)) with (Zpos (digits2_pos mx) - 1) by lia.
      exact Hlo.
  - apply Z.div_lt_upper_bound; [lia|].
    rewrite <- Z.pow_add_r by lia.
    destruct (Zdigits2_bounds mz Hpos) as [_ Hhz].
    eapply Z.lt_le_trans; [exact Hhz|]. apply pow2_le. split; [apply Zdigits2_nonneg|]. lia.
  - exact HM.
  - intros Hz. apply Hex; [reflexivity|]. now apply Emod.
Qed.


(** The mantissa cut at [fexp] is canonical. *)
Lemma cut_canonical (mx ex : Z) :
  0 <= mx -> ex <= fexp (Zdigits2 mx + ex) ->
  mx / 2 ^ (fexp (Zdigits2 mx + ex) - ex) < 2 ^ 53
  /\ (fexp (Zdigits2 mx + ex) = -1074
      \/ 2 ^ 52 <= mx / 2 ^ (fexp (Zdigits2 mx + ex) - ex)).
Proof.
  intros Hm He.
  remember (fexp (Zdigits2 mx + ex)) as e1 eqn:E1.
  rewrite fexp_eq in E1.
  assert (Hpw : 0 < 2 ^ (e1 - ex)) by (apply pow2_pos; lia).
  destruct (Z.eq_dec mx 0) as [->|Hne].
  - simpl in E1. split; [rewrite Z.div_0_l; lia|left; lia].
  - destruct (Zdigits2_bounds mx ltac:(lia)) as [Hlo Hhi]. split.
    + apply Z.div_lt_upper_bound; [lia|].
      rewrite <- Z.pow_add_r by lia.
      eapply Z.lt_le_trans; [exact Hhi|]. apply pow2_le.
      split; [apply Zdigits2_nonneg|lia].
    + destruct (Z.eq_dec e1 (-1074)) as [|Hn]; [now left|right].
      apply Z.div_le_lower_bound; [lia|].
      rewrite Z.mul_comm, <- Z.pow_add_r by lia.
      replace (52 + (e1 - ex)) with (Zdigits2 mx - 1) by lia. exact Hlo.
Qed.

Lemma div_cross (a b c d : Z) : 0 < b -> 0 < d -> a * d = c * b -> a / b = c / d.
Proof.
  intros Hb Hd E.
  rewrite <- (Z.div_mul_cancel_r a b d) by lia.
  rewrite <- (Z.div_mul_cancel_r c d b) by lia.
  rewrite E. f_equal. ring.
Qed.

Lemma mod_cross (a b c d : Z) :
  0 < b -> 0 < d -> a * d = c * b -> a mod b = 0 -> c mod d = 0.
Proof.
  intros Hb Hd E Hz.
  apply Z.mod_divide in Hz; [|lia]. destruct Hz as [k Hk]. subst a.
  apply Z.mod_divide; [lia|]. exists k. nia.
Qed.

(** Signed values: [rnd V D x] says that [x] is a valid finite float
    between the floats around the exact value [V / D] (in units). *)
Definition reprZ (c : Z) : Prop := repr (Z.abs c).

Definition rnd (V D : Z) (x : spec_float) : Prop :=
  valid x /\ is_finite x = true
  /\ (forall c, reprZ c -> c * D <= V -> c <= units x)
  /\ (forall c, reprZ c -> V <= c * D -> units x <= c).

Lemma repr_0 : repr 0.
Proof. exists 0, 0. split; [reflexivity|lia]. Qed.

Lemma rnd_exact (V D c : Z) (x : spec_float) :
  rnd V D x -> reprZ c -> V = c * D -> units x = c.
Proof. intros [_ [_ [Hlo Hhi]]] Hc E. apply Z.le_antisymm; [apply Hhi|apply Hlo]; auto; lia. Qed.

Lemma rounds_to_rnd (s : bool) (N D : Z) (x : spec_float) :
  0 <= N -> 0 < D -> N <= max_units * D ->
  rounds_to s N D x -> rnd (cond_Zopp s N) D x.
Proof.
  intros HN HD Hmax Hr.
  destruct (rounds_to_rounded s N D x HN HD Hmax Hr) as [Hv [Hf [Hs [Hu [Hlo Hhi]]]]].
  assert (Hmag : 0 <= mag x) by (unfold mag; lia).
  split; [exact Hv|]. split; [exact Hf|].
  rewrite Hu. unfold reprZ. destruct s; simpl; split; intros c Hc Hle.
  - assert (H0 : c <= 0) by nia.
    replace (Z.abs c) with (- c) in Hc by lia.
    assert (mag x <= - c) by (apply Hhi; [exact Hc|nia]). lia.
  - destruct (Z_lt_le_dec 0 c) as [Hpos|Hneg]; [lia|].
    replace (Z.abs c) with (- c) in Hc by lia.
    assert (- c <= mag x) by (apply Hlo; [exact Hc|nia]). lia.
  - destruct (Z_lt_le_dec c 0) as [Hneg|Hpos]; [lia|].
    replace (Z.abs c) with c in Hc by lia. now apply Hlo.
  - assert (H0 : 0 <= c) by nia.
    replace (Z.abs c) with c in Hc by lia. now apply Hhi.
Qed.

Lemma rnd_zero (s : bool) (D : Z) : 0 < D -> rnd 0 D (S754_zero s).
Proof.
  intros HD. repeat split; simpl; intros c _ Hc; nia.
Qed.

Lemma of_scaled_rnd (m e : Z) (sz : bool) :
  -1074 <= e -> Z.abs m * 2 ^ (e + 1074) <= max_units ->
  rnd (m * 2 ^ (e + 1074)) 1 (Float.of_scaled m e sz).
Proof.
  intros He Hmax. unfold Float.of_scaled, binary_normalize.
  destruct m as [|p|p].
  - rewrite Z.mul_0_l. apply rnd_zero. lia.
  - assert (HP : 0 < 2 ^ (e + 1074)) by (apply pow2_pos; lia).
    apply (rounds_to_rnd false (Zpos p * 2 ^ (e + 1074))).
    + nia.
    + lia.
    + simpl Z.abs in Hmax. lia.
    + now apply binary_round_rounds.
  - assert (HP : 0 < 2 ^ (e + 1074)) by (apply pow2_pos; lia).
    replace (Zneg p * 2 ^ (e + 1074)) with (cond_Zopp true (Zpos p * 2 ^ (e + 1074)))
      by (unfold cond_Zopp; rewrite <- Z.mul_opp_l; reflexivity).
    apply (rounds_to_rnd true (Zpos p * 2 ^ (e + 1074))).
    + nia.
    + lia.
    + simpl Z.abs in Hmax. lia.
    + now apply binary_round_rounds.
Qed.


(** *** Valid floats *)

Lemma valid_finite (s : bool) (m : positive) (e : Z) :
  valid (S754_finite s m e) ->
  -1074 <= e <= 971 /\ Zpos m < 2 ^ 53 /\ (e = -1074 \/ 2 ^ 52 <= Zpos m).
Proof.
  unfold valid, valid_binary, bounded, canonical_mantissa. intros H.
  apply andb_prop in H. destruct H as [Hc He].
  apply Z.eqb_eq in Hc. apply Z.leb_le in He. rewrite fexp_eq in Hc.
  unfold Float.emax, Float.prec in He.
  destruct (digits2_pos_bounds m) as [Hlo Hhi].
  assert (Hd : Zpos (digits2_pos m) <= 53) by lia.
  split; [lia|]. split.
  - eapply Z.lt_le_trans; [exact Hhi|]. apply pow2_le. lia.
  - destruct (Z.eq_dec e (-1074)) as [|Hne]; [now left|right].
    replace (Zpos (digits2_pos m)) with 53 in Hlo by lia. exact Hlo.
Qed.

Lemma units_repr (x : spec_float) : valid x -> reprZ (units x).
Proof.
  destruct x as [s| | |s m e]; intros Hv; unfold reprZ; try apply repr_0.
  unfold units.
  destruct (valid_finite s m e Hv) as [He [Hm _]].
  assert (HP : 0 < 2 ^ (e + 1074)) by (apply pow2_pos; lia).
  exists (Zpos m), e. split; [|lia].
  destruct s; unfold cond_Zopp; rewrite ?Z.abs_opp; apply Z.abs_eq;
    apply Z.mul_nonneg_nonneg; lia.
Qed.

Lemma units_max (x : spec_float) : valid x -> Z.abs (units x) <= max_units.
Proof.
  destruct x as [s| | |s m e]; intros Hv; try (simpl; unfold max_units; lia).
  unfold units.
  destruct (valid_finite s m e Hv) as [He [Hm _]].
  assert (HP : 0 < 2 ^ (e + 1074)) by (apply pow2_pos; lia).
  assert (2 ^ (e + 1074) <= 2 ^ (971 + 1074)) by (apply pow2_le; lia).
  assert (Habs : Z.abs (cond_Zopp s (Zpos m * 2 ^ (e + 1074))) = Zpos m * 2 ^ (e + 1074)).
  { destruct s; unfold cond_Zopp; rewrite ?Z.abs_opp; apply Z.abs_eq;
      apply Z.mul_nonneg_nonneg; lia. }
  rewrite Habs. unfold max_units.
  apply Z.mul_le_mono_nonneg; lia.
Qed.

(** A valid finite float rounds its own value. *)
Lemma rnd_self (x : spec_float) (V : Z) :
  valid x -> is_finite x = true -> V = units x -> rnd V 1 x.
Proof. intros Hv Hf ->. repeat split; auto; intros c _ Hc; lia. Qed.

Lemma shl_align_fst (mx : positive) (ex ez : Z) :
  ez <= ex -> Zpos (fst (shl_align mx ex ez)) = Zpos mx * 2 ^ (ex - ez).
Proof.
  intros Hle. destruct (shl_align_spec mx ex ez) as [k [Hk [Hk1 [Hk2 [-> Hpos]]]]].
  simpl fst. rewrite Z2Pos.id by exact Hpos.
  destruct (Z_lt_le_dec ez ex) as [Hlt|Hge].
  - now rewrite (Hk1 Hlt).
  - rewrite (Hk2 Hge). replace (ex - ez) with 0 by lia. reflexivity.
Qed.

Lemma units_aligned (s : bool) (mx : positive) (ex ez : Z) :
  -1074 <= ez <= ex ->
  cond_Zopp s (Zpos (fst (shl_align mx ex ez))) * 2 ^ (ez + 1074)
  = units (S754_finite s mx ex).
Proof.
  intros He. rewrite shl_align_fst by lia. unfold units.
  replace (ex + 1074) with ((ex - ez) + (ez + 1074)) by lia.
  rewrite (Z.pow_add_r 2 (ex - ez) (ez + 1074)) by lia.
  destruct s; unfold cond_Zopp; ring.
Qed.

Lemma add_rnd (x y : spec_float) :
  valid x -> valid y -> is_finite x = true -> is_finite y = true ->
  Z.abs (units x + units y) <= max_units ->
  rnd (units x + units y) 1 (SFadd Float.prec Float.emax x y).
Proof.
  intros Hx Hy Fx Fy Hmax.
  destruct x as [sx| | |sx mx ex]; try discriminate;
    destruct y as [sy| | |sy my ey]; try discriminate.
  - simpl. destruct sx, sy; apply rnd_zero; lia.
  - apply rnd_self; auto.
  - apply rnd_self; auto. simpl units. lia.
  - destruct (valid_finite _ _ _ Hx) as [Hex _].
    destruct (valid_finite _ _ _ Hy) as [Hey _].
    unfold SFadd. set (ez := Z.min ex ey).
    rewrite <- (units_aligned sx mx ex ez), <- (units_aligned sy my ey ez) in * by lia.
    rewrite <- Z.mul_add_distr_r in *.
    apply (of_scaled_rnd _ ez false); [lia|].
    assert (HP : 0 < 2 ^ (ez + 1074)) by (apply pow2_pos; lia).
    rewrite Z.abs_mul in Hmax. rewrite (Z.abs_eq (2 ^ _)) in Hmax by lia. exact Hmax.
Qed.

Lemma sub_rnd (x y : spec_float) :
  valid x -> valid y -> is_finite x = true -> is_finite y = true ->
  Z.abs (units x - units y) <= max_units ->
  rnd (units x - units y) 1 (SFsub Float.prec Float.emax x y).
Proof.
  intros Hx Hy Fx Fy Hmax.
  destruct x as [sx| | |sx mx ex]; try discriminate;
    destruct y as [sy| | |sy my ey]; try discriminate.
  - simpl. destruct sx, sy; apply rnd_zero; lia.
  - apply rnd_self; auto. simpl units. destruct sy; simpl; lia.
  - apply rnd_self; auto. simpl units. lia.
  - destruct (valid_finite _ _ _ Hx) as [Hex _].
    destruct (valid_finite _ _ _ Hy) as [Hey _].
    unfold SFsub. set (ez := Z.min ex ey).
    rewrite <- (units_aligned sx mx ex ez), <- (units_aligned sy my ey ez) in * by lia.
    rewrite <- Z.mul_sub_distr_r in *.
    apply (of_scaled_rnd _ ez false); [lia|].
    assert (HP : 0 < 2 ^ (ez + 1074)) by (apply pow2_pos; lia).
    rewrite Z.abs_mul in Hmax. rewrite (Z.abs_eq (2 ^ _)) in Hmax by lia. exact Hmax.
Qed.


(** *** Division by Float.sixty *)

Definition m60 : Z := 60 * 2 ^ 47.

Lemma sixty_eq : Float.sixty = S754_finite false (Z.to_pos m60) (-47).
Proof. reflexivity. Qed.

Lemma new_location_exact (n k : Z) : new_location n k = loc_Exact <-> k = 0.
Proof.
  unfold new_location, new_location_even, new_location_odd.
  destruct (Z.even n); destruct (Z.eqb_spec k 0) as [->|Hne]; split; intros H;
    try reflexivity; try congruence; try discriminate.
Qed.

Lemma fexp_mono (a b : Z) : a <= b -> fexp a <= fexp b.
Proof. rewrite !fexp_eq. lia. Qed.

Lemma div_core_60 (mx : positive) (ex : Z) :
  exists q e' l s,
    SFdiv_core_binary Float.prec Float.emax (Zpos mx) ex m60 (-47) = (q, e', l)
    /\ 0 <= s /\ e' = ex + 47 - s
    /\ e' <= fexp (Zdigits2 q + e')
    /\ q = Zpos mx * 2 ^ s / m60
    /\ (l = loc_Exact <-> (Zpos mx * 2 ^ s) mod m60 = 0).
Proof.
  unfold SFdiv_core_binary.
  change (Zdigits2 m60) with 53.
  set (d1 := Zdigits2 (Zpos mx)).
  set (e' := Z.min (fexp (d1 + ex - (53 + -47))) (ex - -47)).
  set (s := ex - -47 - e').
  assert (Hs : 0 <= s) by (unfold s, e'; lia).
  set (m' := match s with Zpos _ => Z.shiftl (Zpos mx) s | 0 => Zpos mx | Zneg _ => 0 end).
  assert (Em : m' = Zpos mx * 2 ^ s).
  { unfold m'. destruct s as [|p|p] eqn:Es; try lia.
    - rewrite Z.shiftl_mul_pow2; lia. }
  assert (Hdiv : Z.div_eucl m' m60 = (m' / m60, m' mod m60)).
  { unfold Z.div, Z.modulo. destruct (Z.div_eucl m' m60); reflexivity. }
  rewrite Hdiv.
  exists (m' / m60), e', (new_location m60 (m' mod m60)), s.
  split; [reflexivity|]. split; [exact Hs|]. split; [unfold s; lia|].
  rewrite <- Em. split; [|split; [reflexivity|apply new_location_exact]].
  (* enough digits are left in the quotient *)
  assert (He' : e' <= fexp (d1 + ex - 6)) by (unfold e'; replace (53 + -47) with 6 by lia; lia).
  eapply Z.le_trans; [exact He'|]. apply fexp_mono.
  assert (Hq0 : 0 <= m' / m60).
  { apply Z.div_pos; [|reflexivity]. rewrite Em. apply Z.mul_nonneg_nonneg; [lia|].
    apply Z.lt_le_incl, pow2_pos; lia. }
  destruct (Z_le_gt_dec (d1 + s - 53) 0) as [Hsmall|Hbig].
  - pose proof (Zdigits2_nonneg (m' / m60)). unfold s in Hsmall |- *. lia.
  - assert (Hge : d1 + s - 54 + 1 <= Zdigits2 (m' / m60)).
    { apply Zdigits2_ge; [lia|].
      apply Z.div_le_lower_bound; [reflexivity|].
      destruct (Zdigits2_bounds (Zpos mx) ltac:(lia)) as [Hlo _]. fold d1 in Hlo.
      rewrite Em.
      assert (HPs : 0 < 2 ^ s) by (apply pow2_pos; lia).
      assert (Hm60 : m60 <= 2 ^ 53) by (unfold m60; lia).
      assert (E : 2 ^ 53 * 2 ^ (d1 + s - 54) = 2 ^ (d1 - 1) * 2 ^ s).
      { assert (1 <= d1) by (unfold d1; simpl; lia).
        rewrite <- !Z.pow_add_r by lia. f_equal. lia. }
      assert (HPd : 0 < 2 ^ (d1 + s - 54)) by (apply pow2_pos; lia).
      nia. }
    unfold s in Hge |- *. lia.
Qed.


Lemma div60_rounds (s : bool) (mx : positive) (ex : Z) :
  -1074 <= ex ->
  rounds_to s (Zpos mx * 2 ^ (ex + 1074)) 60
    (let '(mz, ez, lz) := SFdiv_core_binary Float.prec Float.emax (Zpos mx) ex m60 (-47) in
     binary_round_aux Float.prec Float.emax s mz ez lz).
Proof.
  intros Hex.
  destruct (div_core_60 mx ex) as [q [e' [l [sft [-> [Hs [Ee' [Hpre [Eq Hl]]]]]]]]].
  assert (HPs : 0 < 2 ^ sft) by (apply pow2_pos; lia).
  assert (Hm60 : 0 < m60) by reflexivity.
  assert (Hq0 : 0 <= q).
  { rewrite Eq. apply Z.div_pos; [|exact Hm60]. apply Z.mul_nonneg_nonneg; lia. }
  destruct (binary_round_aux_spec s q e' l Hq0 Hpre) as [M [HM [Hexact ->]]].
  destruct (cut_canonical q e' Hq0 Hpre) as [Hlt Hcan].
  set (efin := fexp (Zdigits2 q + e')) in *.
  assert (Hefin : -1074 <= efin) by (unfold efin; rewrite fexp_eq; lia).
  assert (HPn : 0 < 2 ^ (efin - e')) by (apply pow2_pos; lia).
  assert (HPf : 0 < 2 ^ (efin + 1074)) by (apply pow2_pos; lia).
  assert (HPe : 0 < 2 ^ (ex + 1074)) by (apply pow2_pos; lia).
  assert (Ecross : Zpos mx * 2 ^ (ex + 1074) * (m60 * 2 ^ (efin - e'))
                   = Zpos mx * 2 ^ sft * (60 * 2 ^ (efin + 1074))).
  { unfold m60.
    transitivity (Zpos mx * 60 * (2 ^ (ex + 1074) * (2 ^ 47 * 2 ^ (efin - e')))); [ring|].
    transitivity (Zpos mx * 60 * (2 ^ sft * 2 ^ (efin + 1074))); [|ring].
    f_equal. rewrite <- !Z.pow_add_r by lia. f_equal. lia. }
  assert (Equot : Zpos mx * 2 ^ (ex + 1074) / (60 * 2 ^ (efin + 1074)) = q / 2 ^ (efin - e')).
  { rewrite Eq, Z.div_div by lia. apply div_cross; [nia|nia|exact Ecross]. }
  exists M, efin. split; [reflexivity|]. split; [exact Hefin|].
  rewrite Equot. split; [exact Hcan|]. split; [exact Hlt|]. split; [exact HM|].
  intros Hz.
  assert (Hz' : (Zpos mx * 2 ^ sft) mod (m60 * 2 ^ (efin - e')) = 0).
  { eapply mod_cross; [| |exact Ecross|exact Hz]; nia. }
  apply mod_mul_zero in Hz'; [|lia|lia]. destruct Hz' as [Hz1 Hz2].
  apply Hexact; [now apply Hl|]. rewrite Eq. exact Hz2.
Qed.

Lemma div60_rnd (x : spec_float) :
  valid x -> is_finite x = true -> rnd (units x) 60 (SFdiv Float.prec Float.emax x Float.sixty).
Proof.
  intros Hv Hf. destruct x as [sx| | |sx mx ex]; try discriminate.
  - apply rnd_zero. lia.
  - destruct (valid_finite _ _ _ Hv) as [Hex _].
    pose proof (units_max _ Hv) as Hmax.
    assert (HP : 0 < 2 ^ (ex + 1074)) by (apply pow2_pos; lia).
    assert (Habs : Z.abs (units (S754_finite sx mx ex)) = Zpos mx * 2 ^ (ex + 1074)).
    { unfold units. destruct sx; unfold cond_Zopp; rewrite ?Z.abs_opp; apply Z.abs_eq; nia. }
    rewrite Habs in Hmax.
    change (SFdiv Float.prec Float.emax (S754_finite sx mx ex) Float.sixty)
      with (let '(mz, ez, lz) := SFdiv_core_binary Float.prec Float.emax (Zpos mx) ex m60 (-47) in
            binary_round_aux Float.prec Float.emax (xorb sx false) mz ez lz).
    rewrite xorb_false_r. unfold units.
    apply rounds_to_rnd; try nia.
    apply div60_rounds. lia.
Qed.


(** *** Comparisons *)

Lemma units_finite (s : bool) (m : positive) (e : Z) :
  -1074 <= e ->
  units (S754_finite s m e) = cond_Zopp s (Zpos m * 2 ^ (e + 1074))
  /\ 0 < Zpos m * 2 ^ (e + 1074).
Proof.
  intros He. split; [reflexivity|].
  apply Z.mul_pos_pos; [lia|apply pow2_pos; lia].
Qed.

Lemma compare_mag (m1 m2 : positive) (e1 e2 : Z) :
  valid (S754_finite false m1 e1) -> valid (S754_finite false m2 e2) ->
  match Z.compare e1 e2 with
  | Lt => Lt
  | Gt => Gt
  | Eq => Pos.compare_cont Eq m1 m2
  end = (Zpos m1 * 2 ^ (e1 + 1074) ?= Zpos m2 * 2 ^ (e2 + 1074)).
Proof.
  intros H1 H2.
  destruct (valid_finite _ _ _ H1) as [He1 [Hm1 Hc1]].
  destruct (valid_finite _ _ _ H2) as [He2 [Hm2 Hc2]].
  destruct (Z.compare_spec e1 e2) as [->|Hlt|Hgt].
  - change (Pos.compare_cont Eq m1 m2) with (Zpos m1 ?= Zpos m2).
    apply Zmult_compare_compat_r. apply Z.lt_gt, pow2_pos. lia.
  - symmetry. apply Z.compare_lt_iff.
    destruct Hc2 as [->|Hc2]; [lia|].
    assert (Hs : Zpos m1 * 2 ^ (e1 + 1074) < 2 ^ 52 * 2 ^ (e2 + 1074))
      by (apply repr_small; lia).
    assert (0 < 2 ^ (e2 + 1074)) by (apply pow2_pos; lia). nia.
  - symmetry. apply Z.compare_gt_iff.
    destruct Hc1 as [->|Hc1]; [lia|].
    assert (Hs : Zpos m2 * 2 ^ (e2 + 1074) < 2 ^ 52 * 2 ^ (e1 + 1074))
      by (apply repr_small; lia).
    assert (0 < 2 ^ (e1 + 1074)) by (apply pow2_pos; lia). nia.
Qed.

Lemma valid_sign (s s' : bool) (m : positive) (e : Z) :
  valid (S754_finite s m e) -> valid (S754_finite s' m e).
Proof. exact (fun H => H). Qed.

(** On valid finite floats the comparison is that of the values. *)
Lemma SFcompare_units (x y : spec_float) :
  valid x -> valid y -> is_finite x = true -> is_finite y = true ->
  SFcompare x y = Some (units x ?= units y).
Proof.
  intros Hx Hy Fx Fy.
  destruct x as [sx| | |sx mx ex]; try discriminate;
    destruct y as [sy| | |sy my ey]; try discriminate.
  - reflexivity.
  - destruct (valid_finite _ _ _ Hy) as [Hey _].
    destruct (units_finite sy my ey ltac:(lia)) as [-> Hp].
    simpl SFcompare. f_equal. symmetry.
    destruct sy; unfold cond_Zopp, units; [apply Z.compare_gt_iff|apply Z.compare_lt_iff]; lia.
  - destruct (valid_finite _ _ _ Hx) as [Hex _].
    destruct (units_finite sx mx ex ltac:(lia)) as [-> Hp].
    simpl SFcompare. f_equal. symmetry.
    destruct sx; unfold cond_Zopp, units; [apply Z.compare_lt_iff|apply Z.compare_gt_iff]; lia.
  - destruct (valid_finite _ _ _ Hx) as [Hex _].
    destruct (valid_finite _ _ _ Hy) as [Hey _].
    destruct (units_finite sx mx ex ltac:(lia)) as [-> Hpx].
    destruct (units_finite sy my ey ltac:(lia)) as [-> Hpy].
    pose proof (compare_mag mx my ex ey (valid_sign _ _ _ _ Hx) (valid_sign _ _ _ _ Hy)) as Hc.
    unfold SFcompare. f_equal.
    destruct sx, sy; unfold cond_Zopp.
    + rewrite Z.compare_opp.
      rewrite (Z.compare_antisym (Zpos mx * 2 ^ (ex + 1074)) (Zpos my * 2 ^ (ey + 1074))).
      rewrite <- Hc.
      destruct (ex ?= ey); reflexivity.
    + symmetry. apply Z.compare_lt_iff. lia.
    + symmetry. apply Z.compare_gt_iff. lia.
    + exact Hc.
Qed.

Lemma SFltb_units (x y : spec_float) :
  valid x -> valid y -> is_finite x = true -> is_finite y = true ->
  SFltb x y = (units x <? units y).
Proof.
  intros Hx Hy Fx Fy. unfold SFltb, Z.ltb. rewrite SFcompare_units by assumption.
  destruct (units x ?= units y); reflexivity.
Qed.

Lemma SFleb_units (x y : spec_float) :
  valid x -> valid y -> is_finite x = true -> is_finite y = true ->
  SFleb x y = (units x <=? units y).
Proof.
  intros Hx Hy Fx Fy. unfold SFleb, Z.leb. rewrite SFcompare_units by assumption.
  destruct (units x ?= units y); reflexivity.
Qed.


(** *** [fmod] and [floor] *)

(** One and sixty, in units. *)
Definition unit1 : Z := 2 ^ 1074.
Definition unit60 : Z := 60 * 2 ^ 1074.

Lemma fmod60_units (x : spec_float) :
  valid x -> is_finite x = true ->
  valid (Float.fmod x Float.sixty)
  /\ is_finite (Float.fmod x Float.sixty) = true
  /\ units (Float.fmod x Float.sixty) = Z.rem (units x) unit60.
Proof.
  intros Hv Hf. destruct x as [sx| | |sx mx ex]; try discriminate.
  - repeat split.
  - destruct (valid_finite _ _ _ Hv) as [Hex [Hmx _]].
    change (Float.fmod (S754_finite sx mx ex) Float.sixty)
      with (Float.of_scaled
              (cond_Zopp sx ((Zpos mx * 2 ^ (ex - Z.min ex (-47)))
                             mod (m60 * 2 ^ (-47 - Z.min ex (-47)))))
              (Z.min ex (-47)) sx).
    set (e := Z.min ex (-47)).
    set (X := Zpos mx * 2 ^ (ex - e)).
    set (Y := m60 * 2 ^ (-47 - e)).
    assert (HPx : 0 < 2 ^ (ex - e)) by (apply pow2_pos; lia).
    assert (HPy : 0 < 2 ^ (-47 - e)) by (apply pow2_pos; lia).
    assert (HPe : 0 < 2 ^ (e + 1074)) by (apply pow2_pos; lia).
    assert (HX : 0 < X) by (unfold X; nia).
    assert (HY : 0 < Y) by (unfold Y, m60; nia).
    pose proof (Z.mod_pos_bound X Y HY) as Hr.
    set (r := X mod Y) in *.
    assert (EX : X * 2 ^ (e + 1074) = Zpos mx * 2 ^ (ex + 1074)).
    { unfold X. rewrite <- Z.mul_assoc, <- Z.pow_add_r by lia. do 2 f_equal. lia. }
    assert (EY : Y * 2 ^ (e + 1074) = unit60).
    { unfold Y, m60, unit60. rewrite <- !Z.mul_assoc, <- !Z.pow_add_r by lia.
      do 2 f_equal. lia. }
    assert (Er : r * 2 ^ (e + 1074) = (Zpos mx * 2 ^ (ex + 1074)) mod unit60).
    { rewrite <- EX, <- EY. unfold r. rewrite Z.mul_mod_distr_r by lia. reflexivity. }
    assert (Hr53 : r < 2 ^ 53).
    { destruct (Z_le_gt_dec ex (-47)) as [Hle|Hgt].
      - assert (Ee : ex - e = 0) by (unfold e; lia).
        assert (r <= X) by (apply Z.mod_le; lia).
        unfold X in *. rewrite Ee, Z.mul_1_r in *. lia.
      - assert (Ee : -47 - e = 0) by (unfold e; lia).
        unfold Y in Hr. rewrite Ee, Z.mul_1_r in Hr. unfold m60 in Hr. lia. }
    assert (Habs : Z.abs (cond_Zopp sx r) = r) by (destruct sx; simpl; lia).
    assert (Hrnd : rnd (cond_Zopp sx r * 2 ^ (e + 1074)) 1
                       (Float.of_scaled (cond_Zopp sx r) e sx)).
    { apply of_scaled_rnd; [unfold e; lia|]. rewrite Habs, Er.
      pose proof (Z.mod_pos_bound (Zpos mx * 2 ^ (ex + 1074)) unit60 ltac:(reflexivity)).
      assert (unit60 <= max_units) by (unfold unit60, max_units; lia). lia. }
    destruct Hrnd as [Hv' [Hf' Hsand]].
    split; [exact Hv'|]. split; [exact Hf'|].
    rewrite (rnd_exact _ 1 (cond_Zopp sx r * 2 ^ (e + 1074)) _ (conj Hv' (conj Hf' Hsand))).
    + unfold units. destruct sx; unfold cond_Zopp.
      * rewrite Z.rem_opp_l by (unfold unit60; lia).
        rewrite Z.rem_mod_nonneg by (unfold unit60; nia || lia).
        rewrite <- Er. ring.
      * rewrite Z.rem_mod_nonneg by (unfold unit60; nia || lia).
        exact Er.
    + unfold reprZ. rewrite Z.abs_mul, Habs, (Z.abs_eq (2 ^ _)) by lia.
      exists r, e. split; [reflexivity|]. unfold e. lia.
    + ring.
Qed.

Lemma floor_units (x : spec_float) :
  valid x -> is_finite x = true ->
  valid (Float.floor x) /\ is_finite (Float.floor x) = true
  /\ units (Float.floor x) = units x / unit1 * unit1.
Proof.
  intros Hv Hf. destruct x as [sx| | |sx mx ex]; try discriminate.
  - repeat split.
  - destruct (valid_finite _ _ _ Hv) as [Hex [Hmx _]].
    unfold Float.floor. destruct (Z.leb_spec 0 ex) as [Hpos|Hneg].
    + split; [exact Hv|]. split; [reflexivity|].
      unfold units, unit1.
      replace (cond_Zopp sx (Zpos mx * 2 ^ (ex + 1074)))
        with (cond_Zopp sx (Zpos mx * 2 ^ ex) * 2 ^ 1074).
      * rewrite Z.div_mul by lia. reflexivity.
      * rewrite Z.pow_add_r by lia. destruct sx; unfold cond_Zopp; ring.
    + set (n := cond_Zopp sx (Zpos mx) / 2 ^ (- ex)).
      assert (HP : 0 < 2 ^ (- ex)) by (apply pow2_pos; lia).
      assert (Hn : Z.abs n <= Zpos mx).
      { unfold n. destruct sx; unfold cond_Zopp.
        - assert (- Zpos mx <= - Zpos mx / 2 ^ (- ex)).
          { apply Z.div_le_lower_bound; [lia|]. nia. }
          assert (- Zpos mx / 2 ^ (- ex) < 0) by (apply Z.div_lt_upper_bound; lia).
          lia.
        - assert (0 <= Zpos mx / 2 ^ (- ex)) by (apply Z.div_pos; lia).
          assert (Zpos mx / 2 ^ (- ex) <= Zpos mx).
          { apply Z.div_le_upper_bound; [lia|]. nia. }
          lia. }
      assert (Hrnd : rnd (n * 2 ^ (0 + 1074)) 1 (Float.of_scaled n 0 sx)).
      { apply of_scaled_rnd; [lia|].
        assert (2 ^ 53 * 2 ^ (0 + 1074) <= max_units) by (unfold max_units; simpl; lia).
        assert (0 < 2 ^ (0 + 1074)) by (apply pow2_pos; lia). nia. }
      destruct Hrnd as [Hv' [Hf' Hsand]].
      split; [exact Hv'|]. split; [exact Hf'|].
      rewrite (rnd_exact _ 1 (n * 2 ^ (0 + 1074)) _ (conj Hv' (conj Hf' Hsand))).
      * unfold units, unit1, n. simpl (0 + 1074). f_equal.
        replace (cond_Zopp sx (Zpos mx * 2 ^ (ex + 1074)))
          with (cond_Zopp sx (Zpos mx) * 2 ^ (ex + 1074))
          by (destruct sx; unfold cond_Zopp; ring).
        replace (2 ^ 1074) with (2 ^ (- ex) * 2 ^ (ex + 1074))
          by (rewrite <- Z.pow_add_r by lia; f_equal; lia).
        rewrite Z.div_mul_cancel_r; [reflexivity|lia|].
        apply Z.neq_sym, Z.lt_neq, pow2_pos. lia.
      * unfold reprZ. exists (Z.abs n), 0. rewrite Z.abs_mul.
        rewrite (Z.abs_eq (2 ^ _)) by (apply Z.lt_le_incl, pow2_pos; lia).
        split; [reflexivity|lia].
      * ring.
Qed.

End FloatFacts.

(** ** [divmod] by sixty *)

Module DivmodFacts.

Import FloatFacts.

(** A valid finite float. *)
Definition fin (x : spec_float) : Prop := valid x /\ is_finite x = true.

Lemma rnd_fin (V D : Z) (x : spec_float) : rnd V D x -> fin x.
Proof. intros [Hv [Hf _]]. now split. Qed.

Lemma fin_zero (s : bool) : fin (S754_zero s).
Proof. split; reflexivity. Qed.

Lemma fin_one : fin Float.one /\ units Float.one = unit1.
Proof. repeat split. Qed.

Lemma fin_half : fin Float.half /\ units Float.half = 2 ^ 1073.
Proof. repeat split. Qed.

Lemma fin_sixty : fin Float.sixty /\ units Float.sixty = unit60.
Proof. repeat split. Qed.

Lemma unit1_pos : 0 < unit1.
Proof. reflexivity. Qed.

Lemma nonzero_units (x : spec_float) :
  fin x -> Float.nonzero x = negb (units x =? 0).
Proof.
  intros [Hv Hf]. destruct x as [s| | |s m e]; try discriminate; [reflexivity|].
  destruct (valid_finite _ _ _ Hv) as [He _].
  destruct (units_finite s m e ltac:(lia)) as [-> Hp].
  simpl Float.nonzero. symmetry. apply negb_true_iff, Z.eqb_neq.
  destruct s; unfold cond_Zopp; lia.
Qed.

Lemma ltb_units (x y : spec_float) :
  fin x -> fin y -> Float.ltb x y = (units x <? units y).
Proof. intros [Hx Fx] [Hy Fy]. now apply SFltb_units. Qed.

Lemma leb_units (x y : spec_float) :
  fin x -> fin y -> Float.leb x y = (units x <=? units y).
Proof. intros [Hx Fx] [Hy Fy]. now apply SFleb_units. Qed.

(** Integers below [2^53], and the powers of two, are floats. *)
Lemma reprZ_int (k : Z) : Z.abs k < 2 ^ 53 -> reprZ (k * unit1).
Proof.
  intros Hk. unfold reprZ. exists (Z.abs k), 0.
  rewrite Z.abs_mul. unfold unit1. simpl (0 + 1074).
  rewrite (Z.abs_eq (2 ^ 1074)) by lia. split; [reflexivity|lia].
Qed.

Lemma reprZ_pow2 (p : Z) : 0 <= p <= 1023 -> reprZ (2 ^ p * unit1).
Proof.
  intros Hp. unfold reprZ, unit1. exists 1, p.
  rewrite <- Z.pow_add_r by lia.
  rewrite Z.abs_eq by (apply Z.lt_le_incl, pow2_pos; lia).
  rewrite Z.mul_1_l. split; [reflexivity|lia].
Qed.

Lemma reprZ_opp (c : Z) : reprZ c -> reprZ (- c).
Proof. unfold reprZ. now rewrite Z.abs_opp. Qed.

Lemma rnd_abs_le (V D c : Z) (x : spec_float) :
  rnd V D x -> 0 < D -> reprZ c -> Z.abs V <= c * D -> Z.abs (units x) <= c.
Proof.
  intros [_ [_ [Hlo Hhi]]] HD Hc HV.
  assert (units x <= c) by (apply Hhi; [exact Hc|lia]).
  assert (- c <= units x) by (apply Hlo; [now apply reprZ_opp|lia]).
  lia.
Qed.

Lemma pow2_units_le_max (p : Z) : 0 <= p <= 1023 -> 2 ^ p * unit1 <= max_units.
Proof.
  intros Hp. unfold unit1, max_units.
  rewrite <- Z.pow_add_r by lia.
  assert (2 ^ (p + 1074) <= 2 ^ (1023 + 1074)) by (apply pow2_le; lia).
  assert (2 ^ (1023 + 1074) <= (2 ^ 53 - 1) * 2 ^ (971 + 1074)) by (vm_compute; discriminate).
  lia.
Qed.

(** *** Snapping the quotient to an integer *)

Definition snap (div1 alt : spec_float) : spec_float :=
  if Float.nonzero div1 then
    let fl := Float.floor div1 in
    if Float.ltb Float.half (Float.sub div1 fl) then Float.add fl Float.one else fl
  else alt.

Lemma floor_bounds (x : spec_float) :
  fin x ->
  fin (Float.floor x)
  /\ units (Float.floor x) <= units x < units (Float.floor x) + unit1
  /\ units (Float.floor x) = units x / unit1 * unit1.
Proof.
  intros [Hv Hf]. destruct (floor_units x Hv Hf) as [Hv' [Hf' E]].
  split; [now split|]. split; [|exact E].
  rewrite E. pose proof unit1_pos.
  pose proof (Z.div_mod (units x) unit1 ltac:(lia)).
  pose proof (Z.mod_pos_bound (units x) unit1 ltac:(lia)). lia.
Qed.

Lemma snap_spec (div1 alt : spec_float) :
  fin div1 -> fin alt -> units alt = 0 ->
  Z.abs (units div1) <= 2 ^ 1021 * unit1 ->
  fin (snap div1 alt)
  /\ (forall k, Z.abs k < 2 ^ 53 -> k * unit1 <= units div1 -> k * unit1 <= units (snap div1 alt))
  /\ (forall k, Z.abs k < 2 ^ 53 -> units div1 <= k * unit1 -> units (snap div1 alt) <= k * unit1).
Proof.
  intros Hd Ha Ha0 Hb. unfold snap.
  rewrite (nonzero_units div1 Hd).
  destruct (Z.eqb_spec (units div1) 0) as [Hz|Hnz]; simpl negb; cbv iota.
  { split; [exact Ha|]. rewrite Ha0, Hz in *. split; intros k _ Hk; exact Hk. }
  destruct (floor_bounds div1 Hd) as [Hfl [Hfb Efl]].
  set (fl := Float.floor div1) in *.
  pose proof unit1_pos as HU.
  pose proof (pow2_units_le_max 1021 ltac:(lia)) as H1021.
  pose proof (pow2_units_le_max 1023 ltac:(lia)) as H1023.
  assert (H2 : 2 ^ 1023 * unit1 = 4 * (2 ^ 1021 * unit1)) by reflexivity.
  assert (Hsub : rnd (units div1 - units fl) 1 (Float.sub div1 fl)).
  { destruct Hd, Hfl. apply sub_rnd; auto. lia. }
  assert (Hfloor_k : forall k, k * unit1 <= units div1 -> k * unit1 <= units fl).
  { intros k Hk. rewrite Efl. apply Z.mul_le_mono_nonneg_r; [lia|].
    apply Z.div_le_lower_bound; lia. }
  rewrite (ltb_units _ _ (proj1 fin_half) (rnd_fin _ _ _ Hsub)).
  rewrite (proj2 fin_half).
  destruct (Z.ltb_spec (2 ^ 1073) (units (Float.sub div1 fl))) as [Hgt|Hle].
  - (* the quotient is more than a half above its floor *)
    assert (Hlt : units fl < units div1).
    { destruct (Z.eq_dec (units div1) (units fl)) as [E|NE]; [|lia].
      assert (units (Float.sub div1 fl) = 0).
      { apply (rnd_exact _ 1 0 _ Hsub); [apply repr_0|lia]. }
      lia. }
    assert (Hadd : rnd (units fl + units Float.one) 1 (Float.add fl Float.one)).
    { destruct Hfl, (proj1 fin_one). apply add_rnd; auto.
      rewrite (proj2 fin_one). lia. }
    rewrite (proj2 fin_one) in Hadd.
    split; [exact (rnd_fin _ _ _ Hadd)|].
    destruct Hadd as [_ [_ [Hlo Hhi]]]. split; intros k Hk Hle.
    + apply Hlo; [now apply reprZ_int|]. specialize (Hfloor_k k Hle). lia.
    + apply Hhi; [now apply reprZ_int|].
      assert (units fl / unit1 * unit1 = units fl).
      { rewrite Efl. rewrite Z.div_mul by lia. reflexivity. }
      assert (units fl / unit1 < k).
      { apply Z.div_lt_upper_bound; lia. }
      nia.
  - split; [exact Hfl|]. split; intros k Hk Hle'.
    + now apply Hfloor_k.
    + lia.
Qed.


(** *** The quotient and the remainder *)

Lemma rem_cases (a w : Z) :
  0 < w ->
  (0 <= a /\ Z.rem a w = a mod w /\ 0 <= a mod w <= a /\ a mod w < w)
  \/ (a < 0 /\ Z.rem a w = - ((- a) mod w) /\ 0 <= (- a) mod w <= - a /\ (- a) mod w < w).
Proof.
  intros Hw. destruct (Z_lt_le_dec a 0) as [Hneg|Hpos]; [right|left].
  - pose proof (Z.mod_pos_bound (- a) w Hw).
    pose proof (Z.mod_le (- a) w ltac:(lia) Hw).
    replace a with (- - a) at 2 by lia.
    rewrite Z.rem_opp_l, Z.rem_mod_nonneg by lia. lia.
  - pose proof (Z.mod_pos_bound a w Hw).
    pose proof (Z.mod_le a w Hpos Hw).
    rewrite Z.rem_mod_nonneg by lia. lia.
Qed.

Lemma unit60_eq : unit60 = 60 * unit1.
Proof. reflexivity. Qed.

Lemma divmod60_finite (vx : spec_float) :
  fin vx ->
  exists fd md,
    Float.divmod vx Float.sixty = Ok (fd, md)
    /\ fin fd /\ fin md
    /\ (0 <= units vx ->
        units md = units vx mod unit60
        /\ (units md = 0 -> md = S754_zero false)
        /\ forall k, 0 <= k -> 60 * k < 2 ^ 53 ->
             (k * unit60 <= units vx -> k * unit1 <= units fd)
             /\ (units vx < (k + 1) * unit60 -> units fd <= k * unit1)).
Proof.
  intros Hvx. pose proof Hvx as [Vx Fx].
  pose proof unit1_pos as HU.
  assert (HW : 0 < unit60) by reflexivity.
  pose proof (units_max vx Vx) as HA.
  pose proof (pow2_units_le_max 1019 ltac:(lia)) as H1019.
  pose proof (pow2_units_le_max 1021 ltac:(lia)) as H1021.
  assert (H21 : 2 ^ 1021 * unit1 = 4 * (2 ^ 1019 * unit1)) by reflexivity.
  assert (Hmax60 : max_units <= 2 ^ 1019 * unit1 * 60) by (vm_compute; discriminate).
  assert (HW6 : unit60 <= 2 ^ 1019 * unit1) by (vm_compute; discriminate).
  unfold Float.divmod.
  change (Float.eqb Float.sixty Float.zero) with false. cbv iota.
  destruct (fmod60_units vx Vx Fx) as [Vm [Fm Em]].
  set (mod0 := Float.fmod vx Float.sixty) in *.
  assert (Hmod0 : fin mod0) by now split.
  (* the difference and the quotient *)
  assert (Ht : rnd (units vx - units mod0) 1 (Float.sub vx mod0)).
  { apply sub_rnd; auto. rewrite Em.
    destruct (rem_cases (units vx) unit60 HW) as [[? [-> ?]]|[? [-> ?]]]; lia. }
  set (t := Float.sub vx mod0) in *.
  pose proof (rnd_fin _ _ _ Ht) as [Vt Ft].
  pose proof (units_max t Vt) as HT.
  assert (Hdiv : rnd (units t) 60 (Float.div t Float.sixty)) by now apply div60_rnd.
  set (div0 := Float.div t Float.sixty) in *.
  pose proof (rnd_fin _ _ _ Hdiv) as Hdiv0.
  assert (Bdiv0 : Z.abs (units div0) <= 2 ^ 1019 * unit1).
  { apply (rnd_abs_le _ 60 _ _ Hdiv); [lia|apply reprZ_pow2; lia|lia]. }
  set (alt := Float.copysign_zero (Float.div vx Float.sixty)).
  assert (Halt : fin alt /\ units alt = 0) by (split; [apply fin_zero|reflexivity]).
  change (Float.ltb Float.sixty Float.zero) with false.
  rewrite (nonzero_units mod0 Hmod0).
  rewrite (ltb_units mod0 Float.zero Hmod0 (fin_zero false)).
  change (units Float.zero) with 0.
  destruct (Z.eqb_spec (units mod0) 0) as [Hz|Hnz]; simpl negb; cbv iota.
  - (* no remainder *)
    fold (snap div0 alt).
    destruct (snap_spec div0 alt Hdiv0 (proj1 Halt) (proj2 Halt) ltac:(lia)) as [Hfd [Hlo Hhi]].
    exists (snap div0 alt), (Float.copysign_zero Float.sixty).
    split; [reflexivity|]. split; [exact Hfd|]. split; [apply fin_zero|].
    intros Hpos. rewrite Em in Hz.
    destruct (rem_cases (units vx) unit60 HW) as [[_ [Er Hr]]|[? _]]; [|lia].
    rewrite Er in Hz. split; [simpl units; lia|]. split; [reflexivity|].
    intros k Hk Hk53.
    pose proof (Z.div_mod (units vx) unit60 ltac:(lia)) as Hdm.
    assert (Et : units t = units vx).
    { apply (rnd_exact _ 1 _ _ Ht); [now apply units_repr|]. rewrite Em, Er. lia. }
    destruct Hdiv as [_ [_ [Dlo Dhi]]]. rewrite Et, unit60_eq in *.
    split; intros Hle.
    + apply Hlo; [lia|]. apply Dlo; [apply reprZ_int; lia|lia].
    + apply Hhi; [lia|]. apply Dhi; [apply reprZ_int; lia|].
      assert (units vx / (60 * unit1) <= k) by (apply Z.lt_succ_r, Z.div_lt_upper_bound; lia).
      nia.
  - destruct (Z.ltb_spec (units mod0) 0) as [Hneg|Hpos0]; simpl Bool.eqb; simpl negb; cbv iota.
    + (* a negative remainder: the quotient goes down, the remainder up *)
      assert (Hd1 : rnd (units div0 - units Float.one) 1 (Float.sub div0 Float.one)).
      { destruct Hdiv0, (proj1 fin_one). apply sub_rnd; auto. rewrite (proj2 fin_one). lia. }
      rewrite (proj2 fin_one) in Hd1.
      assert (Bd1 : Z.abs (units (Float.sub div0 Float.one)) <= 2 ^ 1021 * unit1).
      { apply (rnd_abs_le _ 1 _ _ Hd1); [lia|apply reprZ_pow2; lia|lia]. }
      assert (Hm1 : rnd (units mod0 + units Float.sixty) 1 (Float.add mod0 Float.sixty)).
      { destruct (proj1 fin_sixty). apply add_rnd; auto. rewrite (proj2 fin_sixty), Em.
        destruct (rem_cases (units vx) unit60 HW) as [[? [-> ?]]|[? [-> ?]]]; lia. }
      fold (snap (Float.sub div0 Float.one) alt).
      destruct (snap_spec _ alt (rnd_fin _ _ _ Hd1) (proj1 Halt) (proj2 Halt) Bd1)
        as [Hfd _].
      exists (snap (Float.sub div0 Float.one) alt), (Float.add mod0 Float.sixty).
      split; [reflexivity|]. split; [exact Hfd|]. split; [exact (rnd_fin _ _ _ Hm1)|].
      intros Hpos. exfalso. rewrite Em in Hneg.
      destruct (rem_cases (units vx) unit60 HW) as [[_ [Er Hr]]|[? _]]; lia.
    + (* a positive remainder *)
      fold (snap div0 alt).
      destruct (snap_spec div0 alt Hdiv0 (proj1 Halt) (proj2 Halt) ltac:(lia)) as [Hfd [Hlo Hhi]].
      exists (snap div0 alt), mod0.
      split; [reflexivity|]. split; [exact Hfd|]. split; [exact Hmod0|].
      intros Hpos.
      destruct (rem_cases (units vx) unit60 HW) as [[_ [Er Hr]]|[? _]]; [|lia].
      rewrite Er in Em. split; [exact Em|]. split; [intros Hz0; exfalso; now apply Hnz|].
      intros k Hk Hk53.
      pose proof (Z.div_mod (units vx) unit60 ltac:(lia)) as Hdm.
      destruct Ht as [_ [_ [Tlo Thi]]].
      destruct Hdiv as [_ [_ [Dlo Dhi]]]. rewrite Em, unit60_eq in *.
      split; intros Hle.
      * apply Hlo; [lia|]. apply Dlo; [apply reprZ_int; lia|].
        assert (k <= units vx / (60 * unit1)) by (apply Z.div_le_lower_bound; lia).
        replace (k * unit1 * 60) with (60 * k * unit1) by ring.
        apply Tlo; [apply reprZ_int; lia|]. nia.
      * apply Hhi; [lia|]. apply Dhi; [apply reprZ_int; lia|].
        assert (units vx / (60 * unit1) <= k) by (apply Z.lt_succ_r, Z.div_lt_upper_bound; lia).
        replace (k * unit1 * 60) with (60 * k * unit1) by ring.
        apply Thi; [apply reprZ_int; lia|]. nia.
Qed.

(** On an infinity or a NaN both results are NaN. *)
Lemma divmod60_not_finite (vx : spec_float) :
  is_finite vx = false ->
  Float.divmod vx Float.sixty = Ok (S754_nan, S754_nan).
Proof. destruct vx as [s|s| |s m e]; try discriminate; intros _; reflexivity. Qed.

End DivmodFacts.

(** ** Validity, conversion to integers, and uniqueness *)

Module FloatValues.

Import FloatFacts DivmodFacts.





(** [int(x)] of a non-negative finite float. *)
Lemma to_int_units (x : spec_float) :
  fin x -> 0 <= units x -> Float.to_int x = Ok (units x / unit1).
Proof.
  intros [Hv Hf] Hpos. destruct x as [s| | |s m e]; try discriminate; [reflexivity|].
  destruct (valid_finite _ _ _ Hv) as [He _].
  destruct (units_finite s m e ltac:(lia)) as [Eu Hp]. rewrite Eu in *.
  destruct s; unfold cond_Zopp in *; [lia|].
  unfold Float.to_int, cond_Zopp, unit1. f_equal.
  destruct (Z.leb_spec 0 e) as [Hge|Hlt].
  - rewrite Z.pow_add_r, Z.mul_assoc by lia. rewrite Z.div_mul by lia. reflexivity.
  - replace (2 ^ 1074) with (2 ^ (- e) * 2 ^ (e + 1074))
      by (rewrite <- Z.pow_add_r by lia; f_equal; lia).
    rewrite Z.div_mul_cancel_r; [reflexivity| |];
      apply Z.neq_sym, Z.lt_neq, pow2_pos; lia.
Qed.

Lemma to_int_fin (x : spec_float) : fin x -> exists n, Float.to_int x = Ok n.
Proof.
  intros [_ Hf]. destruct x as [s| | |s m e]; try discriminate; eexists; reflexivity.
Qed.

(** Valid finite floats of the same value and sign are the same. *)
Lemma units_inj (x y : spec_float) :
  fin x -> fin y -> units x = units y -> units x <> 0 -> x = y.
Proof.
  intros [Hx Fx] [Hy Fy] E Hnz.
  destruct x as [sx| | |sx mx ex]; try discriminate; [exfalso; now apply Hnz|].
  destruct y as [sy| | |sy my ey]; try discriminate; [exfalso; apply Hnz; exact E|].
  destruct (valid_finite _ _ _ Hx) as [Hex _].
  destruct (valid_finite _ _ _ Hy) as [Hey _].
  destruct (units_finite sx mx ex ltac:(lia)) as [Eux Hpx].
  destruct (units_finite sy my ey ltac:(lia)) as [Euy Hpy].
  rewrite Eux, Euy in E.
  assert (Es : sx = sy) by (destruct sx, sy; unfold cond_Zopp in E; try reflexivity; lia).
  subst sy.
  assert (Em : Zpos mx * 2 ^ (ex + 1074) = Zpos my * 2 ^ (ey + 1074))
    by (destruct sx; unfold cond_Zopp in E; lia).
  pose proof (compare_mag mx my ex ey (valid_sign _ _ _ _ Hx) (valid_sign _ _ _ _ Hy)) as Hc.
  rewrite Em, Z.compare_refl in Hc.
  destruct (Z.compare_spec ex ey) as [->|?|?]; try discriminate.
  change (Pos.compare_cont Eq mx my) with (Pos.compare mx my) in Hc.
  apply Pos.compare_eq in Hc. now subst.
Qed.

End FloatValues.

(** ** [_human_readable_time] *)

Module TimeFacts.

Import FloatFacts DivmodFacts FloatValues.

(** The decision of [_human_readable_time] once the two [divmod]s are done. *)
Definition render (hours mins secs : Float.float) : result string :=
  (if Float.ltb Float.zero hours then
     h <- format_d_float 0 hours ;;
     m <- format_d_float 2 mins ;;
     s <- format_d_float 2 secs ;;
     Ok (h ++ "h" ++ m ++ "m" ++ s ++ "s")%string
   else if Float.ltb Float.zero mins then
     m <- format_d_float 0 mins ;;
     s <- format_d_float 2 secs ;;
     Ok (m ++ "m" ++ s ++ "s")%string
   else if Float.leb Float.one secs then
     Ok (format_f 2 secs ++ "s")%string
   else
     Ok (format_f 0 (Float.mul secs Float.thousand) ++ "ms")%string)%res.

Lemma hrt_render (elapsed mins1 secs hours mins : Float.float) :
  Float.divmod elapsed Float.sixty = Ok (mins1, secs) ->
  Float.divmod mins1 Float.sixty = Ok (hours, mins) ->
  _human_readable_time elapsed = render hours mins secs.
Proof.
  intros H1 H2. unfold _human_readable_time, render. rewrite H1. simpl Res.bind.
  rewrite H2. reflexivity.
Qed.

Lemma hrt_not_finite (elapsed : Float.float) :
  is_finite elapsed = false -> _human_readable_time elapsed = Ok "nanms"%string.
Proof.
  destruct elapsed as [s|s| |s m e]; try discriminate; intros _; reflexivity.
Qed.

Lemma format_d_float_fin (width : nat) (x : Float.float) :
  fin x -> exists s, format_d_float width x = Ok s.
Proof.
  intros Hx. destruct (to_int_fin x Hx) as [n Hn].
  unfold format_d_float. rewrite Hn. eexists. reflexivity.
Qed.

Lemma render_total (hours mins secs : Float.float) :
  fin hours -> fin mins -> fin secs -> exists s, render hours mins secs = Ok s.
Proof.
  intros Hh Hm Hs. unfold render.
  destruct (format_d_float_fin 0 hours Hh) as [h Eh].
  destruct (format_d_float_fin 2 mins Hm) as [m2 Em2].
  destruct (format_d_float_fin 0 mins Hm) as [m0 Em0].
  destruct (format_d_float_fin 2 secs Hs) as [s2 Es2].
  rewrite Eh, Em2, Em0, Es2. simpl Res.bind.
  destruct (Float.ltb Float.zero hours); [eexists; reflexivity|].
  destruct (Float.ltb Float.zero mins); [eexists; reflexivity|].
  destruct (Float.leb Float.one secs); eexists; reflexivity.
Qed.

(** [_human_readable_time] raises for no float. *)
Lemma hrt_total (elapsed : Float.float) :
  valid elapsed -> exists s, _human_readable_time elapsed = Ok s.
Proof.
  intros Hv. destruct (is_finite elapsed) eqn:Hf.
  - destruct (divmod60_finite elapsed (conj Hv Hf)) as [mins1 [secs [E1 [Hm1 [Hs _]]]]].
    destruct (divmod60_finite mins1 Hm1) as [hours [mins [E2 [Hh [Hm _]]]]].
    rewrite (hrt_render _ _ _ _ _ E1 E2). now apply render_total.
  - rewrite hrt_not_finite by assumption. eexists. reflexivity.
Qed.


(** The hours, minutes and seconds of a non-negative finite duration. *)
Lemma hrt_nonneg (x : Float.float) :
  fin x -> 0 <= units x ->
  exists hours mins secs,
    _human_readable_time x = render hours mins secs
    /\ fin hours /\ fin mins /\ fin secs
    /\ units secs = units x mod unit60
    /\ (units secs = 0 -> secs = S754_zero false)
    /\ 0 <= units hours
    /\ 0 <= units mins < unit60
    /\ (60 * unit60 <= units x -> unit1 <= units hours)
    /\ (units x < 2 ^ 53 * unit1 ->
        units hours = units x / unit60 / 60 * unit1
        /\ units mins = (units x / unit60) mod 60 * unit1).
Proof.
  intros Hx Hpos.
  pose proof unit1_pos as HU.
  assert (HW : 0 < unit60) by reflexivity.
  destruct (divmod60_finite x Hx) as [mins1 [secs [E1 [Hm1 [Hs Hv1]]]]].
  destruct (Hv1 Hpos) as [Es [Ez Hk1]].
  assert (Hm1pos : 0 <= units mins1).
  { destruct (Hk1 0 ltac:(lia) ltac:(lia)) as [Hlo _]. specialize (Hlo ltac:(lia)). lia. }
  destruct (divmod60_finite mins1 Hm1) as [hours [mins [E2 [Hh [Hm Hv2]]]]].
  destruct (Hv2 Hm1pos) as [Em [_ Hk2]].
  exists hours, mins, secs.
  split; [exact (hrt_render _ _ _ _ _ E1 E2)|].
  split; [exact Hh|]. split; [exact Hm|]. split; [exact Hs|].
  split; [exact Es|]. split; [exact Ez|].
  split.
  { destruct (Hk2 0 ltac:(lia) ltac:(lia)) as [Hlo _]. specialize (Hlo ltac:(lia)). lia. }
  split.
  { rewrite Em. apply Z.mod_pos_bound. exact HW. }
  split.
  { intros Hbig.
    destruct (Hk1 60 ltac:(lia) ltac:(lia)) as [Hlo _]. specialize (Hlo Hbig).
    destruct (Hk2 1 ltac:(lia) ltac:(lia)) as [Hlo2 _].
    rewrite unit60_eq in Hlo2. specialize (Hlo2 ltac:(lia)). lia. }
  intros Hsmall.
  set (Q1 := units x / unit60).
  pose proof (Z.div_mod (units x) unit60 ltac:(lia)) as Hdm. fold Q1 in Hdm.
  pose proof (Z.mod_pos_bound (units x) unit60 HW) as Hr.
  assert (HQ0 : 0 <= Q1) by (apply Z.div_pos; lia).
  assert (HQ53 : 60 * Q1 < 2 ^ 53).
  { apply (Z.mul_lt_mono_pos_r unit1); [exact HU|].
    clearbody Q1. rewrite unit60_eq in Hdm, Hr. lia. }
  destruct (Hk1 Q1 HQ0 HQ53) as [Hlo1 Hhi1].
  assert (Emins1 : units mins1 = Q1 * unit1).
  { apply Z.le_antisymm; [apply Hhi1|apply Hlo1]; lia. }
  set (Q2 := Q1 / 60).
  pose proof (Z.div_mod Q1 60 ltac:(lia)) as Hdm2. fold Q2 in Hdm2.
  pose proof (Z.mod_pos_bound Q1 60 ltac:(lia)) as Hr2.
  assert (HQ2 : 0 <= Q2) by (apply Z.div_pos; lia).
  destruct (Hk2 Q2 HQ2 ltac:(lia)) as [Hlo2 Hhi2].
  rewrite Emins1, unit60_eq in *.
  split.
  - apply Z.le_antisymm; [apply Hhi2|apply Hlo2]; nia.
  - rewrite Em. rewrite Z.mul_mod_distr_r by lia. reflexivity.
Qed.


(** *** The four formats *)

Lemma ltb_zero (x : Float.float) : fin x -> Float.ltb Float.zero x = (0 <? units x).
Proof. intros Hx. now rewrite (ltb_units Float.zero x (fin_zero false) Hx). Qed.

Lemma format_d_float_units (width : nat) (x : Float.float) :
  fin x -> 0 <= units x -> format_d_float width x = Ok (format_d width (units x / unit1)).
Proof. intros Hx Hpos. unfold format_d_float. now rewrite to_int_units. Qed.

Lemma render_hours (hours mins secs : Float.float) :
  fin hours -> fin mins -> fin secs ->
  0 < units hours -> 0 <= units mins -> 0 <= units secs ->
  render hours mins secs
  = Ok (format_d 0 (units hours / unit1) ++ "h" ++ format_d 2 (units mins / unit1) ++ "m"
        ++ format_d 2 (units secs / unit1) ++ "s")%string.
Proof.
  intros Hh Hm Hs Ph Pm Ps. unfold render.
  rewrite (ltb_zero hours Hh).
  replace (0 <? units hours) with true by (symmetry; apply Z.ltb_lt; exact Ph).
  rewrite !format_d_float_units by (assumption || lia). reflexivity.
Qed.

Lemma render_minutes (hours mins secs : Float.float) :
  fin hours -> fin mins -> fin secs ->
  units hours <= 0 -> 0 < units mins -> 0 <= units secs ->
  render hours mins secs
  = Ok (format_d 0 (units mins / unit1) ++ "m" ++ format_d 2 (units secs / unit1) ++ "s")%string.
Proof.
  intros Hh Hm Hs Ph Pm Ps. unfold render.
  rewrite (ltb_zero hours Hh), (ltb_zero mins Hm).
  replace (0 <? units hours) with false by (symmetry; apply Z.ltb_ge; exact Ph).
  replace (0 <? units mins) with true by (symmetry; apply Z.ltb_lt; exact Pm).
  rewrite !format_d_float_units by (assumption || lia). reflexivity.
Qed.

Lemma render_seconds (hours mins secs : Float.float) :
  fin hours -> fin mins -> fin secs ->
  units hours <= 0 -> units mins <= 0 -> unit1 <= units secs ->
  render hours mins secs = Ok (format_f 2 secs ++ "s")%string.
Proof.
  intros Hh Hm Hs Ph Pm Ps. unfold render.
  rewrite (ltb_zero hours Hh), (ltb_zero mins Hm).
  rewrite (leb_units Float.one secs (proj1 fin_one) Hs), (proj2 fin_one).
  replace (0 <? units hours) with false by (symmetry; apply Z.ltb_ge; exact Ph).
  replace (0 <? units mins) with false by (symmetry; apply Z.ltb_ge; exact Pm).
  replace (unit1 <=? units secs) with true by (symmetry; apply Z.leb_le; exact Ps).
  reflexivity.
Qed.

Lemma render_millis (hours mins secs : Float.float) :
  fin hours -> fin mins -> fin secs ->
  units hours <= 0 -> units mins <= 0 -> units secs < unit1 ->
  render hours mins secs = Ok (format_f 0 (Float.mul secs Float.thousand) ++ "ms")%string.
Proof.
  intros Hh Hm Hs Ph Pm Ps. unfold render.
  rewrite (ltb_zero hours Hh), (ltb_zero mins Hm).
  rewrite (leb_units Float.one secs (proj1 fin_one) Hs), (proj2 fin_one).
  replace (0 <? units hours) with false by (symmetry; apply Z.ltb_ge; exact Ph).
  replace (0 <? units mins) with false by (symmetry; apply Z.ltb_ge; exact Pm).
  replace (unit1 <=? units secs) with false by (symmetry; apply Z.leb_gt; exact Ps).
  reflexivity.
Qed.

(** The whole seconds of the remainder by sixty. *)
Lemma mod60_seconds (a : Z) : a mod unit60 / unit1 = a / unit1 mod 60.
Proof.
  pose proof unit1_pos as HU.
  replace unit60 with (unit1 * 60) by reflexivity.
  rewrite Z.rem_mul_r by lia.
  rewrite Z.mul_comm, Z.div_add by lia.
  rewrite Z.div_small by (apply Z.mod_pos_bound; lia). reflexivity.
Qed.

Lemma div_lt_60 (a : Z) : 0 <= a < unit60 -> 0 <= a / unit1 < 60.
Proof.
  pose proof unit1_pos as HU. intros Ha. split.
  - apply Z.div_pos; lia.
  - apply Z.div_lt_upper_bound; [lia|]. rewrite unit60_eq in Ha. lia.
Qed.


(** *** Decimal rendering *)

Lemma rhe_scale (a b c : Z) :
  0 < b -> 0 < c -> round_half_even (a * c) (b * c) = round_half_even a b.
Proof.
  intros Hb Hc. unfold round_half_even.
  rewrite Z.div_mul_cancel_r, Z.mul_mod_distr_r by lia.
  rewrite Z.mul_assoc.
  rewrite <- (Zmult_compare_compat_r (2 * (a mod b)) b c) by lia. reflexivity.
Qed.

Lemma rhe_exact (n b : Z) : 0 < b -> round_half_even (n * b) b = n.
Proof.
  intros Hb. unfold round_half_even.
  rewrite Z.div_mul, Z.mod_mul by lia.
  replace (2 * 0 ?= b) with Lt by (symmetry; apply Z.compare_lt_iff; lia).
  reflexivity.
Qed.

Lemma rhe_bounds (a b : Z) :
  0 < b ->
  a / b <= round_half_even a b <= a / b + 1
  /\ (a mod b = 0 -> round_half_even a b = a / b).
Proof.
  intros Hb. unfold round_half_even. split.
  - destruct (2 * (a mod b) ?= b); try destruct (Z.even (a / b)); lia.
  - intros ->. replace (2 * 0 ?= b) with Lt by (symmetry; apply Z.compare_lt_iff; lia).
    reflexivity.
Qed.

Lemma append_nil_r (s : string) : (s ++ "")%string = s.
Proof. induction s as [|c s IH]; simpl; [reflexivity|now rewrite IH]. Qed.

Lemma fixed_0 (n : Z) : fixed 0 n = digits_of_N (Z.to_N n).
Proof. unfold fixed. simpl Z.of_nat. rewrite Z.pow_0_r, Z.div_1_r. apply append_nil_r. Qed.

(** ["%.<p>f"] of a positive finite float, from its value. *)
Lemma format_f_units (p : nat) (y : Float.float) :
  fin y -> 0 < units y ->
  format_f p y = fixed p (round_half_even (units y * 10 ^ Z.of_nat p) unit1).
Proof.
  intros [Hv Hf] Hpos. destruct y as [s| | |s m e]; try discriminate.
  destruct (valid_finite _ _ _ Hv) as [He _].
  destruct (units_finite s m e ltac:(lia)) as [Eu Hp]. rewrite Eu in *.
  destruct s; unfold cond_Zopp in *; [lia|].
  unfold format_f. simpl String.append.
  assert (HT : 0 < 10 ^ Z.of_nat p) by (apply Z.pow_pos_nonneg; lia).
  f_equal. destruct (Z.leb_spec 0 e) as [Hge|Hlt].
  - replace (Zpos m * 2 ^ (e + 1074) * 10 ^ Z.of_nat p)
      with (Zpos m * 2 ^ e * 10 ^ Z.of_nat p * unit1).
    + symmetry. apply rhe_exact. apply unit1_pos.
    + unfold unit1. rewrite Z.pow_add_r by lia. ring.
  - assert (HP : 0 < 2 ^ (e + 1074)) by (apply pow2_pos; lia).
    replace (Zpos m * 2 ^ (e + 1074) * 10 ^ Z.of_nat p)
      with (Zpos m * 10 ^ Z.of_nat p * 2 ^ (e + 1074)) by ring.
    replace unit1 with (2 ^ (- e) * 2 ^ (e + 1074))
      by (unfold unit1; rewrite <- Z.pow_add_r by lia; f_equal; lia).
    symmetry. apply rhe_scale; [apply pow2_pos; lia|exact HP].
Qed.

(** *** The product with a thousand *)

Definition m1000 : Z := 1000 * 2 ^ 43.

Lemma mul1000_rnd (x : Float.float) :
  fin x -> 0 < units x < unit1 ->
  rnd (units x * 1000) 1 (Float.mul x Float.thousand).
Proof.
  intros [Hv Hf] Hx. destruct x as [s| | |s mx ex]; try discriminate; [simpl in Hx; lia|].
  destruct (valid_finite _ _ _ Hv) as [He _].
  destruct (units_finite s mx ex ltac:(lia)) as [Eu Hp]. rewrite Eu in *.
  destruct s; unfold cond_Zopp in *; [lia|].
  change (Float.mul (S754_finite false mx ex) Float.thousand)
    with (binary_round_aux Float.prec Float.emax false (Zpos mx * m1000) (ex + -43) loc_Exact).
  set (P0 := Zpos mx * m1000).
  assert (HP0 : 2 ^ 52 <= P0) by (unfold P0, m1000; lia).
  assert (Hd : 53 <= Zdigits2 P0) by (apply (Zdigits2_ge P0 52); lia).
  assert (Hpre : ex + -43 <= fexp (Zdigits2 P0 + (ex + -43))) by (rewrite fexp_eq; lia).
  destruct (binary_round_aux_spec false P0 (ex + -43) loc_Exact ltac:(lia) Hpre)
    as [M [HM [Hexact ->]]].
  destruct (cut_canonical P0 (ex + -43) ltac:(lia) Hpre) as [Hlt Hcan].
  set (e1 := fexp (Zdigits2 P0 + (ex + -43))) in *.
  assert (He1 : -1074 <= e1) by (unfold e1; rewrite fexp_eq; lia).
  assert (HPn : 0 < 2 ^ (e1 - (ex + -43))) by (apply pow2_pos; lia).
  assert (HPf : 0 < 2 ^ (e1 + 1074)) by (apply pow2_pos; lia).
  assert (HPe : 0 < 2 ^ (ex + 1074)) by (apply pow2_pos; lia).
  assert (Ecross : Zpos mx * 2 ^ (ex + 1074) * 1000 * 2 ^ (e1 - (ex + -43))
                   = P0 * (1 * 2 ^ (e1 + 1074))).
  { unfold P0, m1000.
    transitivity (Zpos mx * 1000 * (2 ^ (ex + 1074) * 2 ^ (e1 - (ex + -43)))); [ring|].
    transitivity (Zpos mx * 1000 * (2 ^ 43 * 2 ^ (e1 + 1074))); [|ring].
    f_equal. rewrite <- !Z.pow_add_r by lia. f_equal. lia. }
  assert (Hunit : 1000 * unit1 <= max_units) by (vm_compute; discriminate).
  apply (rounds_to_rnd false (Zpos mx * 2 ^ (ex + 1074) * 1000) 1); [lia|lia|lia|].
  exists M, e1. split; [reflexivity|]. split; [exact He1|].
  rewrite (div_cross _ (1 * 2 ^ (e1 + 1074)) P0 (2 ^ (e1 - (ex + -43))) ltac:(lia) HPn Ecross).
  split; [exact Hcan|]. split; [exact Hlt|]. split; [exact HM|].
  intros Hz. apply Hexact; [reflexivity|].
  eapply mod_cross; [| |exact Ecross|exact Hz]; lia.
Qed.


(** ["%02d"] of a number below a hundred has two characters. *)
Lemma format_d_2_length (n : Z) :
  0 <= n < 100 -> String.length (format_d 2 n) = 2%nat.
Proof.
  intros Hn.
  assert (Hall : forallb (fun k => Nat.eqb (String.length (format_d 2 (Z.of_nat k))) 2)
                         (seq 0 100) = true) by (vm_compute; reflexivity).
  rewrite forallb_forall in Hall.
  specialize (Hall (Z.to_nat n)). rewrite Z2Nat.id in Hall by lia.
  apply Nat.eqb_eq, Hall, in_seq. lia.
Qed.

(** An hour or more: whole hours, then minutes and seconds below sixty,
    each on two digits. *)
Lemma hours_rule (elapsed : Float.float) :
  Float.valid elapsed = true -> FloatFacts.is_finite elapsed = true ->
  3600 * FloatFacts.unit1 <= FloatFacts.units elapsed ->
  exists h mm ss,
    _human_readable_time elapsed
    = Ok (format_d 0 h ++ "h" ++ format_d 2 mm ++ "m" ++ format_d 2 ss ++ "s")%string
    /\ 1 <= h /\ 0 <= mm < 60 /\ 0 <= ss < 60
    /\ String.length (format_d 2 mm) = 2%nat /\ String.length (format_d 2 ss) = 2%nat
    /\ ss = FloatFacts.units elapsed / FloatFacts.unit1 mod 60
    /\ (FloatFacts.units elapsed < 2 ^ 53 * FloatFacts.unit1 ->
        h = FloatFacts.units elapsed / (3600 * FloatFacts.unit1)
        /\ mm = FloatFacts.units elapsed / (60 * FloatFacts.unit1) mod 60).
Proof.
  intros Hv Hf Hbig.
  pose proof DivmodFacts.unit1_pos as HU.
  destruct (hrt_nonneg elapsed (conj Hv Hf) ltac:(lia))
    as [hours [mins [secs [-> [Hh [Hm [Hs [Es [_ [Ph [Pm [Hhours Hexact]]]]]]]]]]]].
  pose proof (Z.mod_pos_bound (FloatFacts.units elapsed) FloatFacts.unit60 ltac:(reflexivity)) as Hr.
  assert (Hhu : FloatFacts.unit1 <= FloatFacts.units hours).
  { apply Hhours. rewrite DivmodFacts.unit60_eq. lia. }
  exists (FloatFacts.units hours / FloatFacts.unit1),
         (FloatFacts.units mins / FloatFacts.unit1),
         (FloatFacts.units secs / FloatFacts.unit1).
  split; [apply render_hours; auto; lia|].
  split; [apply Z.div_le_lower_bound; lia|].
  pose proof (div_lt_60 _ Pm) as Hmm.
  assert (Hss : 0 <= FloatFacts.units secs / FloatFacts.unit1 < 60)
    by (apply div_lt_60; lia).
  split; [exact Hmm|]. split; [exact Hss|].
  split; [apply format_d_2_length; lia|].
  split; [apply format_d_2_length; lia|].
  split; [rewrite Es; apply mod60_seconds|].
  intros Hsmall. destruct (Hexact Hsmall) as [-> ->].
  rewrite !Z.div_mul by lia. rewrite Z.div_div by (try reflexivity; lia).
  split; [f_equal|reflexivity].
Qed.

(** From a minute to an hour: whole minutes, then the whole seconds below
    sixty on two digits. *)
Lemma minutes_rule (elapsed : Float.float) :
  Float.valid elapsed = true -> FloatFacts.is_finite elapsed = true ->
  60 * FloatFacts.unit1 <= FloatFacts.units elapsed < 3600 * FloatFacts.unit1 ->
  _human_readable_time elapsed
  = Ok (format_d 0 (FloatFacts.units elapsed / (60 * FloatFacts.unit1)) ++ "m"
        ++ format_d 2 (FloatFacts.units elapsed / FloatFacts.unit1 mod 60) ++ "s")%string
  /\ 1 <= FloatFacts.units elapsed / (60 * FloatFacts.unit1) < 60
  /\ String.length (format_d 2 (FloatFacts.units elapsed / FloatFacts.unit1 mod 60)) = 2%nat.
Proof.
  intros Hv Hf [Hlo Hhi].
  pose proof DivmodFacts.unit1_pos as HU.
  assert (H53 : 3600 * FloatFacts.unit1 <= 2 ^ 53 * FloatFacts.unit1)
    by (apply Z.mul_le_mono_nonneg_r; lia).
  destruct (hrt_nonneg elapsed (conj Hv Hf) ltac:(lia))
    as [hours [mins [secs [-> [Hh [Hm [Hs [Es [_ [Ph [Pm [_ Hexact]]]]]]]]]]]].
  destruct (Hexact ltac:(lia)) as [Eh Em].
  pose proof (Z.mod_pos_bound (FloatFacts.units elapsed) FloatFacts.unit60 ltac:(reflexivity)) as Hr.
  change FloatFacts.unit60 with (60 * FloatFacts.unit1) in *.
  set (Q := FloatFacts.units elapsed / (60 * FloatFacts.unit1)) in *.
  assert (HQ : 1 <= Q < 60).
  { unfold Q. split.
    - apply Z.div_le_lower_bound; lia.
    - apply Z.div_lt_upper_bound; lia. }
  rewrite (Z.div_small Q 60) in Eh by lia.
  rewrite (Z.mod_small Q 60) in Em by lia.
  split; [|split; [exact HQ|]].
  - rewrite render_minutes; auto; try lia.
    rewrite Em, Es, Z.div_mul by lia.
    change (60 * FloatFacts.unit1) with FloatFacts.unit60.
    rewrite mod60_seconds. reflexivity.
  - apply format_d_2_length.
    pose proof (Z.mod_pos_bound (FloatFacts.units elapsed / FloatFacts.unit1) 60 ltac:(lia)).
    lia.
Qed.

(** From a second to a minute: the elapsed time rounded to two decimals,
    ties to even. *)
Lemma seconds_rule (elapsed : Float.float) :
  Float.valid elapsed = true -> FloatFacts.is_finite elapsed = true ->
  FloatFacts.unit1 <= FloatFacts.units elapsed < 60 * FloatFacts.unit1 ->
  _human_readable_time elapsed
  = Ok (fixed 2 (round_half_even (FloatFacts.units elapsed * 100) FloatFacts.unit1) ++ "s")%string
  /\ 100 <= round_half_even (FloatFacts.units elapsed * 100) FloatFacts.unit1 <= 6000.
Proof.
  intros Hv Hf [Hlo Hhi].
  pose proof DivmodFacts.unit1_pos as HU.
  assert (H53 : 60 * FloatFacts.unit1 <= 2 ^ 53 * FloatFacts.unit1)
    by (apply Z.mul_le_mono_nonneg_r; lia).
  destruct (hrt_nonneg elapsed (conj Hv Hf) ltac:(lia))
    as [hours [mins [secs [-> [Hh [Hm [Hs [Es [_ [Ph [Pm [_ Hexact]]]]]]]]]]]].
  destruct (Hexact ltac:(lia)) as [Eh Em].
  change FloatFacts.unit60 with (60 * FloatFacts.unit1) in *.
  rewrite (Z.div_small (FloatFacts.units elapsed)) in Eh, Em by lia.
  rewrite Z.mod_small in Es by lia.
  change (0 / 60 * FloatFacts.unit1) with 0 in Eh.
  change (0 mod 60 * FloatFacts.unit1) with 0 in Em.
  assert (Esecs : secs = elapsed).
  { apply FloatValues.units_inj; auto; [now split|lia]. }
  subst secs. split.
  - rewrite render_seconds; auto; try lia.
    rewrite (format_f_units 2 elapsed (conj Hv Hf)) by lia. reflexivity.
  - destruct (rhe_bounds (FloatFacts.units elapsed * 100) FloatFacts.unit1 HU)
      as [[Hb1 Hb2] _].
    assert (100 <= FloatFacts.units elapsed * 100 / FloatFacts.unit1)
      by (apply Z.div_le_lower_bound; lia).
    assert (FloatFacts.units elapsed * 100 / FloatFacts.unit1 < 6000)
      by (apply Z.div_lt_upper_bound; lia).
    lia.
Qed.

Lemma rhe_between (a b k : Z) :
  0 < b -> k * b <= a <= (k + 1) * b ->
  k <= round_half_even a b <= k + 1.
Proof.
  intros Hb [Hlo Hhi].
  destruct (rhe_bounds a b Hb) as [[H1 H2] Hex].
  destruct (Z.eq_dec a ((k + 1) * b)) as [->|Hne].
  - rewrite rhe_exact by exact Hb. lia.
  - assert (a / b = k).
    { symmetry. apply Z.div_unique with (r := a - k * b); lia. }
    lia.
Qed.

(** Below a second: the product with 1000, rounded to a float and then to
    an integer, is the floor of the milliseconds or one more. *)
Lemma millis_rule (elapsed : Float.float) :
  fin elapsed -> 0 <= units elapsed < unit1 ->
  exists n,
    _human_readable_time elapsed = Ok (digits_of_N (Z.to_N n) ++ "ms")%string
    /\ units elapsed * 1000 / unit1 <= n <= units elapsed * 1000 / unit1 + 1
    /\ (units elapsed * 1000 mod unit1 = 0 -> n = units elapsed * 1000 / unit1).
Proof.
  intros Hfin [Hlo Hhi].
  pose proof unit1_pos as HU.
  assert (H53 : 1 * unit1 <= 2 ^ 53 * unit1) by (apply Z.mul_le_mono_nonneg_r; lia).
  destruct (hrt_nonneg elapsed Hfin Hlo)
    as [hours [mins [secs [-> [Hh [Hm [Hs [Es [Ez [Ph [Pm [_ Hexact]]]]]]]]]]]].
  destruct (Hexact ltac:(lia)) as [Eh Em].
  change unit60 with (60 * unit1) in *.
  rewrite (Z.div_small (units elapsed)) in Eh, Em by lia.
  rewrite Z.mod_small in Es by lia.
  change (0 / 60 * unit1) with 0 in Eh.
  change (0 mod 60 * unit1) with 0 in Em.
  rewrite render_millis by (auto; lia).
  destruct (Z.eq_dec (units elapsed) 0) as [E0|Hpos].
  - rewrite Ez by lia. rewrite E0. exists 0. repeat split; try reflexivity.
    vm_compute; discriminate.
  - assert (Esecs : secs = elapsed) by (apply units_inj; auto; lia).
    subst secs.
    assert (Hr := mul1000_rnd elapsed Hfin ltac:(lia)).
    set (y := Float.mul elapsed Float.thousand) in *.
    set (k := units elapsed * 1000 / unit1).
    assert (Hk : 0 <= k < 1000).
    { unfold k. split; [apply Z.div_pos; lia|apply Z.div_lt_upper_bound; lia]. }
    pose proof (Z.div_mod (units elapsed * 1000) unit1 ltac:(lia)) as Hdm.
    pose proof (Z.mod_pos_bound (units elapsed * 1000) unit1 HU) as Hmod.
    fold k in Hdm.
    destruct Hr as [Hvy [Hfy [Hylo Hyhi]]].
    assert (Hy1 : k * unit1 <= units y).
    { apply Hylo; [apply reprZ_int; lia|lia]. }
    assert (Hy2 : units y <= (k + 1) * unit1).
    { apply Hyhi; [apply reprZ_int; lia|lia]. }
    assert (Hy0 : 1 <= units y).
    { apply Hylo; [|lia]. exists 1, (-1074). repeat split; try reflexivity; lia. }
    rewrite (format_f_units 0 y (conj Hvy Hfy)) by lia.
    rewrite fixed_0. change (10 ^ Z.of_nat 0) with 1. rewrite Z.mul_1_r.
    exists (round_half_even (units y) unit1).
    split; [reflexivity|]. split.
    + apply rhe_between; lia.
    + intros Hz.
      assert (Ey : units y = k * unit1).
      { apply Z.le_antisymm; [|exact Hy1].
        apply Hyhi; [apply reprZ_int; lia|lia]. }
      rewrite Ey. apply rhe_exact; exact HU.
Qed.

End TimeFacts.

(** ** The readings of a duration

    A finite float [x] is [FloatFacts.units x] times [2^-1074]; one second
    is [FloatFacts.unit1] units. *)

(** The literal [0.4]. *)
Definition four_tenths : Float.float := Float.div (Float.of_Z 4) (Float.of_Z 10).

(** C6. The reading of a finite elapsed time that is not negative follows
    the first rule that matches.  An hour or more: ["<h>h<mm>m<ss>s"], the
    whole hours, then the minutes and the seconds below sixty on two digits.
    From a minute to an hour: ["<m>m<ss>s"].  From a second to a minute:
    the seconds rounded to two decimals, then ["s"].  Below a second: a
    whole number of milliseconds (the floor of the milliseconds or one
    more), then ["ms"].  So [0.4] reads ["400ms"], [1.0] reads ["1.00s"],
    [65.0] reads ["1m05s"] and [3661.0] reads ["1h01m01s"]. *)
Theorem human_readable_time_rules :
  (forall elapsed : Float.float,
      Float.valid elapsed = true -> FloatFacts.is_finite elapsed = true ->
      0 <= FloatFacts.units elapsed ->
      (3600 * FloatFacts.unit1 <= FloatFacts.units elapsed ->
       exists h mm ss,
         _human_readable_time elapsed
         = Ok (format_d 0 h ++ "h" ++ format_d 2 mm ++ "m" ++ format_d 2 ss ++ "s")%string
         /\ 1 <= h /\ 0 <= mm < 60 /\ 0 <= ss < 60
         /\ String.length (format_d 2 mm) = 2%nat /\ String.length (format_d 2 ss) = 2%nat
         /\ ss = FloatFacts.units elapsed / FloatFacts.unit1 mod 60
         /\ (FloatFacts.units elapsed < 2 ^ 53 * FloatFacts.unit1 ->
             h = FloatFacts.units elapsed / (3600 * FloatFacts.unit1)
             /\ mm = FloatFacts.units elapsed / (60 * FloatFacts.unit1) mod 60))
      /\ (60 * FloatFacts.unit1 <= FloatFacts.units elapsed < 3600 * FloatFacts.unit1 ->
          _human_readable_time elapsed
          = Ok (format_d 0 (FloatFacts.units elapsed / (60 * FloatFacts.unit1)) ++ "m"
                ++ format_d 2 (FloatFacts.units elapsed / FloatFacts.unit1 mod 60) ++ "s")%string
          /\ 1 <= FloatFacts.units elapsed / (60 * FloatFacts.unit1) < 60
          /\ String.length
               (format_d 2 (FloatFacts.units elapsed / FloatFacts.unit1 mod 60)) = 2%nat)
      /\ (FloatFacts.unit1 <= FloatFacts.units elapsed < 60 * FloatFacts.unit1 ->
          _human_readable_time elapsed
          = Ok (fixed 2 (round_half_even (FloatFacts.units elapsed * 100) FloatFacts.unit1)
                ++ "s")%string
          /\ 100 <= round_half_even (FloatFacts.units elapsed * 100) FloatFacts.unit1 <= 6000)
      /\ (FloatFacts.units elapsed < FloatFacts.unit1 ->
          exists n,
            _human_readable_time elapsed = Ok (digits_of_N (Z.to_N n) ++ "ms")%string
            /\ FloatFacts.units elapsed * 1000 / FloatFacts.unit1 <= n
               <= FloatFacts.units elapsed * 1000 / FloatFacts.unit1 + 1
            /\ (FloatFacts.units elapsed * 1000 mod FloatFacts.unit1 = 0 ->
                n = FloatFacts.units elapsed * 1000 / FloatFacts.unit1)))
  /\ _human_readable_time four_tenths = Ok "400ms"%string
  /\ _human_readable_time (Float.of_Z 1) = Ok "1.00s"%string
  /\ _human_readable_time (Float.of_Z 65) = Ok "1m05s"%string
  /\ _human_readable_time (Float.of_Z 3661) = Ok "1h01m01s"%string.
Proof.
  split; [|repeat split; vm_compute; reflexivity].
  intros elapsed Hv Hf H0. split; [|split; [|split]].
  - intros H. now apply TimeFacts.hours_rule.
  - intros H. now apply TimeFacts.minutes_rule.
  - intros H. now apply TimeFacts.seconds_rule.
  - intros H. apply TimeFacts.millis_rule; [now split|lia].
Qed.

Lemma human_readable_time_rules_witness :
  _human_readable_time (Float.of_Z 90)
  = Ok (format_d 0 (FloatFacts.units (Float.of_Z 90) / (60 * FloatFacts.unit1)) ++ "m"
        ++ format_d 2 (FloatFacts.units (Float.of_Z 90) / FloatFacts.unit1 mod 60) ++ "s")%string
  /\ 1 <= FloatFacts.units (Float.of_Z 90) / (60 * FloatFacts.unit1) < 60
  /\ String.length
       (format_d 2 (FloatFacts.units (Float.of_Z 90) / FloatFacts.unit1 mod 60)) = 2%nat.
Proof.
  apply (proj1 (proj2 (proj1 human_readable_time_rules (Float.of_Z 90)
                         eq_refl eq_refl ltac:(vm_compute; discriminate)))).
  vm_compute. split; [discriminate|reflexivity].
Defined.

(** ** The Timing Decorator *)




(** ** The edges of the rules *)

Module TimeEdges.

Import FloatFacts DivmodFacts FloatValues TimeFacts.

(** Rounding up: at or above the middle of [k] and [k + 1], with [k] odd. *)
Lemma rhe_up (a b k : Z) :
  0 < b -> k * b <= a < (k + 1) * b -> b <= 2 * (a - k * b) -> Z.odd k = true ->
  round_half_even a b = k + 1.
Proof.
  intros Hb [Hlo Hhi] Hmid Hodd.
  assert (Hq : a / b = k) by (symmetry; apply Z.div_unique with (r := a - k * b); lia).
  assert (Hr : a mod b = a - k * b).
  { rewrite Z.mod_eq by lia. rewrite Hq. ring. }
  unfold round_half_even. rewrite Hq, Hr.
  destruct (Z.compare_spec (2 * (a - k * b)) b) as [E|L|G]; [|lia|reflexivity].
  rewrite <- Z.negb_odd, Hodd. reflexivity.
Qed.

(** Below a second the reading is that of the product with 1000, a float
    next to the exact product. *)
Lemma millis_render (elapsed : Float.float) :
  fin elapsed -> 0 < units elapsed < unit1 ->
  rnd (units elapsed * 1000) 1 (Float.mul elapsed Float.thousand)
  /\ 1 <= units (Float.mul elapsed Float.thousand)
  /\ _human_readable_time elapsed
     = Ok (digits_of_N
             (Z.to_N (round_half_even (units (Float.mul elapsed Float.thousand)) unit1))
           ++ "ms")%string.
Proof.
  intros Hfin [Hlo Hhi].
  pose proof unit1_pos as HU.
  assert (H53 : 1 * unit1 <= 2 ^ 53 * unit1) by (apply Z.mul_le_mono_nonneg_r; lia).
  destruct (hrt_nonneg elapsed Hfin ltac:(lia))
    as [hours [mins [secs [-> [Hh [Hm [Hs [Es [Ez [Ph [Pm [_ Hexact]]]]]]]]]]]].
  destruct (Hexact ltac:(lia)) as [Eh Em].
  change unit60 with (60 * unit1) in *.
  rewrite (Z.div_small (units elapsed)) in Eh, Em by lia.
  rewrite Z.mod_small in Es by lia.
  change (0 / 60 * unit1) with 0 in Eh.
  change (0 mod 60 * unit1) with 0 in Em.
  rewrite render_millis by (auto; lia).
  assert (Esecs : secs = elapsed) by (apply units_inj; auto; lia).
  subst secs.
  assert (Hr := mul1000_rnd elapsed Hfin ltac:(lia)).
  split; [exact Hr|].
  destruct Hr as [Hvy [Hfy [Hylo Hyhi]]].
  assert (Hy0 : 1 <= units (Float.mul elapsed Float.thousand)).
  { apply Hylo; [|lia]. exists 1, (-1074). repeat split; try reflexivity; lia. }
  split; [exact Hy0|].
  rewrite (format_f_units 0 _ (conj Hvy Hfy)) by lia.
  rewrite fixed_0. change (10 ^ Z.of_nat 0) with 1. now rewrite Z.mul_1_r.
Qed.

End TimeEdges.

(** [_human_readable_time] returns a reading for every float: no conversion
    of its formats fails.  Of an infinite time or a NaN the reading is
    ["nanms"]. *)
Theorem human_readable_time_never_raises (elapsed : Float.float) :
  Float.valid elapsed = true ->
  exists s,
    _human_readable_time elapsed = Ok s
    /\ (FloatFacts.is_finite elapsed = false -> s = "nanms"%string).
Proof.
  intros Hv. destruct (TimeFacts.hrt_total elapsed Hv) as [s Hs].
  exists s. split; [exact Hs|].
  intros Hf. rewrite (TimeFacts.hrt_not_finite elapsed Hf) in Hs. now injection Hs.
Qed.

Lemma human_readable_time_never_raises_witness :
  exists s,
    _human_readable_time (S754_infinity false) = Ok s
    /\ (FloatFacts.is_finite (S754_infinity false) = false -> s = "nanms"%string).
Proof.
  apply (human_readable_time_never_raises (S754_infinity false)). reflexivity.
Defined.

(** The top of the seconds rule: from 59.995 seconds to a minute the
    reading is ["60.00s"]. *)
Theorem human_readable_time_sixty_seconds (elapsed : Float.float) :
  Float.valid elapsed = true -> FloatFacts.is_finite elapsed = true ->
  11999 * FloatFacts.unit1 <= 200 * FloatFacts.units elapsed ->
  FloatFacts.units elapsed < 60 * FloatFacts.unit1 ->
  _human_readable_time elapsed = Ok "60.00s"%string.
Proof.
  intros Hv Hf Hlo Hhi.
  pose proof DivmodFacts.unit1_pos as HU.
  destruct (TimeFacts.seconds_rule elapsed Hv Hf ltac:(lia)) as [-> _].
  rewrite (TimeEdges.rhe_up (FloatFacts.units elapsed * 100) FloatFacts.unit1 5999);
    [reflexivity|exact HU|lia|lia|reflexivity].
Qed.

(** [59.9990234375], a float. *)
Definition nearly_a_minute : Float.float := Float.of_scaled 61439 (-10) false.

Lemma human_readable_time_sixty_seconds_witness :
  _human_readable_time nearly_a_minute = Ok "60.00s"%string.
Proof.
  apply (human_readable_time_sixty_seconds nearly_a_minute).
  - reflexivity.
  - reflexivity.
  - vm_compute. discriminate.
  - vm_compute. reflexivity.
Defined.

(** The top of the milliseconds rule: from 0.9995 seconds to a second the
    reading is ["1000ms"]. *)
Theorem human_readable_time_thousand_ms (elapsed : Float.float) :
  Float.valid elapsed = true -> FloatFacts.is_finite elapsed = true ->
  1999 * FloatFacts.unit1 <= 2000 * FloatFacts.units elapsed ->
  FloatFacts.units elapsed < FloatFacts.unit1 ->
  _human_readable_time elapsed = Ok "1000ms"%string.
Proof.
  intros Hv Hf Hlo Hhi.
  pose proof DivmodFacts.unit1_pos as HU.
  destruct (TimeEdges.millis_render elapsed (conj Hv Hf) ltac:(lia))
    as [[_ [_ [Hylo Hyhi]]] [_ ->]].
  set (y := Float.mul elapsed Float.thousand) in *.
  assert (Hhalf : 1999 * 2 ^ 1073 <= FloatFacts.units y).
  { apply Hylo.
    - exists 1999, (-1). split; [reflexivity|lia].
    - change FloatFacts.unit1 with (2 * 2 ^ 1073) in Hlo. lia. }
  assert (Htop : FloatFacts.units y <= 1000 * FloatFacts.unit1).
  { apply Hyhi; [apply DivmodFacts.reprZ_int; lia|lia]. }
  assert (E : round_half_even (FloatFacts.units y) FloatFacts.unit1 = 1000).
  { destruct (Z.eq_dec (FloatFacts.units y) (1000 * FloatFacts.unit1)) as [->|Hne].
    - apply TimeFacts.rhe_exact. exact HU.
    - apply (TimeEdges.rhe_up _ _ 999); [exact HU| |
        change FloatFacts.unit1 with (2 * 2 ^ 1073) in *; lia|reflexivity].
      change FloatFacts.unit1 with (2 * 2 ^ 1073) in *. lia. }
  rewrite E. reflexivity.
Qed.

(** [0.99951171875], a float. *)
Definition nearly_a_second : Float.float := Float.of_scaled 2047 (-11) false.

Lemma human_readable_time_thousand_ms_witness :
  _human_readable_time nearly_a_second = Ok "1000ms"%string.
Proof.
  apply (human_readable_time_thousand_ms nearly_a_second).
  - reflexivity.
  - reflexivity.
  - vm_compute. discriminate.
  - vm_compute. reflexivity.
Defined.


